(** * The VEP lookup-table compiler ([util/create_vep_lut.py])

    A shallow embedding of the table compiler and the properties its
    specification states about it.

    Conventions of the embedding.
    - Python integers are [Z]; an RGBA color is the 4-tuple of integers that
      [np.genfromtxt(..., usecols=(2,3,4,5), dtype=int)] yields for a row.
    - A whitespace-delimited table on disk is represented by the list of the
      data rows [np.genfromtxt] reads from it (comment and blank lines carry
      no row), and a [fl.write] of one formatted row appends that row.
      [np.genfromtxt] is taken as it behaves on a table of two or more data
      rows, where each column it returns has one entry per row; on a single
      row NumPy returns scalars, which the program does not provide for.
    - Python exceptions are the constructors of [error]; a function that may
      raise returns a [result].
    - [load_rules] is imported from [convert_to_vep_parc], which is outside
      the sources; a rules file is represented by the triples it returns. *)

From Stdlib Require Import ZArith Ascii.
From stdpp Require Import base option list strings pretty gmap.

Local Open Scope Z_scope.

(** ** Data model *)

Definition RGBA : Type := Z * Z * Z * Z.

(** One data row [index name R G B A] of a color lookup table. *)
Record AtlasEntry : Type := mkEntry {
  e_index : Z;
  e_name : string;
  e_color : RGBA
}.

(** One data row [is_cortical name R G B A] of the target region file. *)
Record TargetRegion : Type := mkRegion {
  t_iscort : bool;
  t_name : string;
  t_color : RGBA
}.

(** Modelled from the spec: [load_rules] is missing from the sources; it
    returns the parsed records [(rule_kind, arg, output_spec)], of which the
    compiler reads [rule[0]] and [rule[2]]. *)
Record Rule : Type := mkRule {
  rule_0 : string;
  rule_1 : string;
  rule_2 : string
}.

Definition SHIFT_LH : Z := 71000.
Definition SHIFT_RH : Z := 72000.

(** ** Exceptions *)

Inductive error : Type :=
| MalformedRuleError                      (* AssertionError, line 42 *)
| DuplicateColorError (dups : list (RGBA * string * string))
                                          (* ValueError, line 50 *)
| MissingRuleError (reg : string)         (* Exception, line 56 *)
| SubcortCoverageError                    (* AssertionError, line 60 *)
| OrderingError                           (* AssertionError, line 64 *)
| LookupError (name : string)             (* ValueError of list.index *)
| IndexError (ind : nat)                  (* array index out of bounds *)
| IOError (path : string).                (* file missing or unreadable *)

Inductive result (A : Type) : Type :=
| Ok (a : A)
| Raise (e : error).
Arguments Ok {A} a.
Arguments Raise {A} e.

Definition bindR {A B} (m : result A) (f : A -> result B) : result B :=
  match m with
  | Ok a => f a
  | Raise e => Raise e
  end.

Declare Scope result_scope.
Delimit Scope result_scope with R.
Notation "x <- m ;; k" := (bindR m (fun x => k))
  (at level 100, m at next level, right associativity) : result_scope.
Notation "m ;; k" := (bindR m (fun _ => k))
  (at level 100, right associativity) : result_scope.

(** [assert b] raising [e]. *)
Definition assertR (b : bool) (e : error) : result unit :=
  if b then Ok tt else Raise e.

(** [for x in l: body(x)], stopping at the first exception. *)
Fixpoint forR {A} (l : list A) (body : A -> result unit) : result unit :=
  match l with
  | [] => Ok tt
  | x :: l' => (body x ;; forR l' body)%R
  end.

(** ** Python and numpy primitives *)

(** [x in l] for a Python list. *)
Definition py_in (x : string) (l : list string) : bool := bool_decide (x ∈ l).

(** [l.index(x)]: position of the first occurrence, [ValueError] if none. *)
Definition py_index (l : list string) (x : string) : result nat :=
  match list_find (fun y => y = x) l with
  | Some (i, _) => Ok i
  | None => Raise (LookupError x)
  end.

(** [a[ind]] for an array read from a file. *)
Definition py_get {A} (a : list A) (ind : nat) : result A :=
  match a !! ind with
  | Some x => Ok x
  | None => Raise (IndexError ind)
  end.

(** [pat in s] for Python strings: [pat] occurs in [s] as a substring. *)
Fixpoint str_contains (pat s : string) : bool :=
  String.prefix pat s ||
  match s with
  | EmptyString => false
  | String _ s' => str_contains pat s'
  end.

(** [s.split(",")]. *)
Fixpoint split_comma (s : string) : list string :=
  match s with
  | EmptyString => [EmptyString]
  | String c s' =>
      if Ascii.eqb c ","%char then EmptyString :: split_comma s'
      else match split_comma s' with
           | h :: t => String c h :: t
           | [] => [String c EmptyString]
           end
  end.

(** Boolean-mask selection [a[mask]] of numpy. *)
Definition mask_select {A} (a : list A) (mask : list bool) : list A :=
  (filter (fun p => p.2 = true) (zip a mask)).*1.

(** [np.all(b[:-1] >= b[1:])] on a boolean array. *)
Definition np_all_ge_next (b : list bool) : bool :=
  forallb (fun p => orb p.1 (negb p.2)) (zip (removelast b) (tail b)).

(** ** [duplicates] *)

Section duplicates.
Context {K : Type} `{Countable K} {V : Type}.

(** The loop of [duplicates], from a state [(dct, duplicates)]. *)
Fixpoint duplicates_loop (kvs : list (K * V)) (dct : gmap K V)
    (dups : list (K * V * V)) : list (K * V * V) :=
  match kvs with
  | [] => dups
  | (k, v) :: kvs' =>
      match dct !! k with
      | Some v0 => duplicates_loop kvs' dct (dups ++ [(k, v0, v)])
      | None => duplicates_loop kvs' (<[k := v]> dct) dups
      end
  end.

Definition duplicates (keys : list K) (values : list V) : list (K * V * V) :=
  duplicates_loop (zip keys values) ∅ [].
End duplicates.

(** ** The validation part of [create_luts] *)

(** [["%%%d" % i for i in range(10)]]. *)
Definition temp_regions : list string :=
  ["%0"; "%1"; "%2"; "%3"; "%4"; "%5"; "%6"; "%7"; "%8"; "%9"].

(** What one rule contributes to [newregs] (lines 34-38). *)
Definition rule_outputs (rule : Rule) : list string :=
  if py_in (rule_0 rule) ["merge"; "rename"] then [rule_2 rule]
  else if py_in (rule_0 rule) ["split"; "splitnl"] then split_comma (rule_2 rule)
  else [].

(** [newregs] after the filter of line 41. *)
Definition expand_rules (rules : list Rule) : list string :=
  filter (fun reg => negb (py_in reg temp_regions) = true)
         (flat_map rule_outputs rules).

(** Lines 33-42: the rule names, or the failed assertion. *)
Definition check_rules (rules : list Rule) : result (list string) :=
  let newregs := expand_rules rules in
  (assertR (forallb (str_contains "%H") newregs) MalformedRuleError ;;
   Ok newregs)%R.

(** The loop body of line 55. *)
Definition check_cortical (newregs : list string) (reg : string) : result unit :=
  if negb (py_in ("%H-" +:+ reg) newregs) then Raise (MissingRuleError reg)
  else Ok tt.

(** The asserted condition of line 60. *)
Definition subcort_covered (newregs fs_regs : list string) (reg : string) : bool :=
  py_in ("%H-" +:+ reg) newregs
  || (py_in ("Left-" +:+ reg) fs_regs && py_in ("Right-" +:+ reg) fs_regs).

(** Lines 48-64. *)
Definition check_regions (newregs fs_regs vep_regs : list string)
    (vep_iscort : list bool) (vep_colors : list RGBA) : result unit :=
  let duplicate_colors := duplicates vep_colors vep_regs in
  (assertR (negb (0 <? length duplicate_colors)%nat)
           (DuplicateColorError duplicate_colors) ;;
   forR (mask_select vep_regs vep_iscort) (check_cortical newregs) ;;
   forR (mask_select vep_regs (negb <$> vep_iscort))
        (fun reg => assertR (subcort_covered newregs fs_regs reg)
                            SubcortCoverageError) ;;
   assertR (np_all_ge_next vep_iscort) OrderingError)%R.

(** The whole validator: every check of [create_luts] in program order, on
    the parsed inputs. *)
Definition validate (rules : list Rule) (fs_regs vep_regs : list string)
    (vep_iscort : list bool) (vep_colors : list RGBA) : result unit :=
  (newregs <- check_rules rules ;;
   check_regions newregs fs_regs vep_regs vep_iscort vep_colors)%R.

(** ** Writing a file row by row

    The body of a [with open(path, 'w') as fl:] block is a computation that
    appends rows to the file and may raise; the rows written before an
    exception stay in the file. *)

Definition Writer (L A : Type) : Type := list L * result A.

Definition retW {L A} (a : A) : Writer L A := ([], Ok a).

Definition bindW {L A B} (m : Writer L A) (f : A -> Writer L B) : Writer L B :=
  match m with
  | (rows, Ok a) => let '(rows', r) := f a in (rows ++ rows', r)
  | (rows, Raise e) => (rows, Raise e)
  end.

(** [fl.write(row)]. *)
Definition fl_write {L} (row : L) : Writer L unit := ([row], Ok tt).

(** A raising expression evaluated inside the block. *)
Definition liftW {L A} (r : result A) : Writer L A := ([], r).

Declare Scope writer_scope.
Delimit Scope writer_scope with W.
Notation "x <- m ;; k" := (bindW m (fun x => k))
  (at level 100, m at next level, right associativity) : writer_scope.
Notation "m ;; k" := (bindW m (fun _ => k))
  (at level 100, right associativity) : writer_scope.

(** [for x in l: body], threading the loop-carried variable [s]. *)
Fixpoint forW {L A S} (l : list A) (body : A -> S -> Writer L S) (s : S)
    : Writer L S :=
  match l with
  | [] => retW s
  | x :: l' => (s' <- body x s ;; forW l' body s')%W
  end.

(** ** The four builders, as the rows they write *)

Definition hemispheres : list (string * Z) :=
  [("Left", SHIFT_LH); ("Right", SHIFT_RH)].

(** The inner loop of [create_vep_fs_lut] (lines 92-98) for one hemisphere,
    from counter value [i]. *)
Fixpoint vep_fs_hemi (hemi : string) (hnum : Z) (fs_regs : list string)
    (regs_colors : list (string * RGBA)) (i : Z) : list AtlasEntry :=
  match regs_colors with
  | [] => []
  | (reg, color) :: rest =>
      let full_reg_name := hemi +:+ "-" +:+ reg in
      if py_in full_reg_name fs_regs then
        vep_fs_hemi hemi hnum fs_regs rest i
      else
        mkEntry (hnum + i) full_reg_name color
          :: vep_fs_hemi hemi hnum fs_regs rest (i + 1)
  end.

(** The rows [create_vep_fs_lut] appends after the copied reference table
    (lines 90-98). *)
Definition vep_fs_new_rows (vep_regs : list string) (vep_colors : list RGBA)
    (fs_regs : list string) : list AtlasEntry :=
  flat_map (fun '(hemi, hnum) =>
              vep_fs_hemi hemi hnum fs_regs (zip vep_regs vep_colors) 1)
           hemispheres.

(** Body of the [with] block of [create_vep_fs_lut]: [lines] are the rows of
    the reference table. *)
Definition vep_fs_lut_body (vep_regs : list string) (vep_colors : list RGBA)
    (fs_regs : list string) (lines : list AtlasEntry) : Writer AtlasEntry unit :=
  (lines ++ vep_fs_new_rows vep_regs vep_colors fs_regs, Ok tt).

Definition Unknown_row : AtlasEntry := mkEntry 0 "Unknown" (0, 0, 0, 0).

(** Body of the [with] block of [create_vep_mrtrix_lut] (lines 106-113). *)
Definition vep_mrtrix_lut_body (vep_regs names : list string)
    (colors : list RGBA) : Writer AtlasEntry unit :=
  (fl_write Unknown_row ;;
   forW ["Left"; "Right"] (fun hemi i =>
     forW vep_regs (fun reg i =>
       let regname := hemi +:+ "-" +:+ reg in
       ind <- liftW (py_index names regname) ;;
       c <- liftW (py_get colors ind) ;;
       fl_write (mkEntry i regname c) ;;
       retW (i + 1)) i) 1 ;;
   retW tt)%W.

(** Body of the [with] block of [create_subcort_list] (lines 121-124). *)
Definition subcort_list_body (vep_subcort_regions fs_names : list string)
    (fs_inds : list Z) : Writer Z unit :=
  (forW ["Left"; "Right"] (fun hemi (_ : unit) =>
     forW vep_subcort_regions (fun reg (_ : unit) =>
       let name := hemi +:+ "-" +:+ reg in
       ind <- liftW (py_index fs_names name) ;;
       x <- liftW (py_get fs_inds ind) ;;
       fl_write x) tt) tt)%W.

(** Body of the [with] block of [create_parc_lut] (lines 77-80);
    [enumerate] is the counter [i] starting at 0. *)
Definition parc_lut_body (vep_regs names : list string)
    (colors : list RGBA) : Writer AtlasEntry unit :=
  (fl_write Unknown_row ;;
   forW vep_regs (fun reg i =>
     ind <- liftW (py_index names ("Left-" +:+ reg)) ;;
     c <- liftW (py_get colors ind) ;;
     fl_write (mkEntry (i + 1) reg c) ;;
     retW (i + 1)) 0 ;;
   retW tt)%W.

(** ** Files and the top-level program *)

Inductive file : Type :=
| LutFile (rows : list AtlasEntry)       (* columns [index name R G B A] *)
| RegionsFile (rows : list TargetRegion) (* columns [is_cortical name R G B A] *)
| RulesFile (rules : list Rule)          (* what [load_rules] returns for it *)
| IndexFile (inds : list Z).             (* one integer per line *)

(** The disk, and the paths opened for writing so far, oldest first. *)
Record world : Type := mkWorld {
  w_files : gmap string file;
  w_opened : list string
}.

Definition IO (A : Type) : Type := world -> result A * world.

Definition bindIO {A B} (m : IO A) (f : A -> IO B) : IO B :=
  fun w =>
    match m w with
    | (Ok a, w') => f a w'
    | (Raise e, w') => (Raise e, w')
    end.

Definition liftIO {A} (r : result A) : IO A := fun w => (r, w).

Declare Scope io_scope.
Delimit Scope io_scope with IO.
Notation "x <- m ;; k" := (bindIO m (fun x => k))
  (at level 100, m at next level, right associativity) : io_scope.
Notation "m ;; k" := (bindIO m (fun _ => k))
  (at level 100, right associativity) : io_scope.

(** [np.genfromtxt] on a lookup table: its data rows. *)
Definition genfromtxt_lut (path : string) : IO (list AtlasEntry) :=
  fun w =>
    match w_files w !! path with
    | Some (LutFile rows) => (Ok rows, w)
    | _ => (Raise (IOError path), w)
    end.

(** [np.genfromtxt] on the target region file. *)
Definition genfromtxt_regions (path : string) : IO (list TargetRegion) :=
  fun w =>
    match w_files w !! path with
    | Some (RegionsFile rows) => (Ok rows, w)
    | _ => (Raise (IOError path), w)
    end.

Definition load_rules (path : string) : IO (list Rule) :=
  fun w =>
    match w_files w !! path with
    | Some (RulesFile rules) => (Ok rules, w)
    | _ => (Raise (IOError path), w)
    end.

(** [with open(path, 'w') as fl: body]: the file is opened (and truncated),
    receives the rows [body] writes, and an exception of [body] propagates
    after the file is closed. *)
Definition with_open_w {L} (path : string) (mk : list L -> file)
    (body : Writer L unit) : IO unit :=
  fun w =>
    let '(rows, r) := body in
    (r, {| w_files := <[path := mk rows]> (w_files w);
           w_opened := w_opened w ++ [path] |}).

Definition create_parc_lut (vep_regs : list string)
    (vep_fs_lut_file vep_aparc_lut_file : string) : IO unit :=
  (lut <- genfromtxt_lut vep_fs_lut_file ;;
   let names := e_name <$> lut in
   let colors := e_color <$> lut in
   with_open_w vep_aparc_lut_file LutFile (parc_lut_body vep_regs names colors))%IO.

Definition create_vep_fs_lut (vep_regs : list string) (vep_colors : list RGBA)
    (fs_regs : list string) (fs_lut_file vep_fs_lut_file : string) : IO unit :=
  (lines <- genfromtxt_lut fs_lut_file ;;
   with_open_w vep_fs_lut_file LutFile
     (vep_fs_lut_body vep_regs vep_colors fs_regs lines))%IO.

Definition create_vep_mrtrix_lut (vep_regs : list string)
    (vep_fs_lut_file vep_mrtrix_lut_file : string) : IO unit :=
  (lut <- genfromtxt_lut vep_fs_lut_file ;;
   let names := e_name <$> lut in
   let colors := e_color <$> lut in
   with_open_w vep_mrtrix_lut_file LutFile
     (vep_mrtrix_lut_body vep_regs names colors))%IO.

Definition create_subcort_list (vep_subcort_regions : list string)
    (vep_fs_lut vep_subcort_list : string) : IO unit :=
  (lut <- genfromtxt_lut vep_fs_lut ;;
   let fs_names := e_name <$> lut in
   let fs_inds := e_index <$> lut in
   with_open_w vep_subcort_list IndexFile
     (subcort_list_body vep_subcort_regions fs_names fs_inds))%IO.

Definition create_luts (fs_lut_file vep_rules_file vep_regions_file
    vep_fs_lut_file vep_mrtrix_lut_file vep_subcort_file vep_aparc_lut_file
    : string) : IO unit :=
  (fs_lut <- genfromtxt_lut fs_lut_file ;;
   let fs_regs := e_name <$> fs_lut in
   rules <- load_rules vep_rules_file ;;
   newregs <- liftIO (check_rules rules) ;;
   regions <- genfromtxt_regions vep_regions_file ;;
   let vep_regs := t_name <$> regions in
   let vep_iscort := t_iscort <$> regions in
   let vep_colors := t_color <$> regions in
   liftIO (check_regions newregs fs_regs vep_regs vep_iscort vep_colors) ;;
   create_vep_fs_lut vep_regs vep_colors fs_regs fs_lut_file vep_fs_lut_file ;;
   create_vep_mrtrix_lut vep_regs vep_fs_lut_file vep_mrtrix_lut_file ;;
   create_subcort_list (mask_select vep_regs (negb <$> vep_iscort))
                       vep_fs_lut_file vep_subcort_file ;;
   create_parc_lut (mask_select vep_regs vep_iscort)
                   vep_fs_lut_file vep_aparc_lut_file)%IO.

(** ** Specification-side definitions *)

(** The entry a by-name lookup in a table resolves to: the first row, in
    file order, that carries the name. *)
Definition first_entry (lut : list AtlasEntry) (n : string) : option AtlasEntry :=
  snd <$> list_find (fun e => e_name e = n) lut.

(** The hemisphere-prefixed names of a list of regions. *)
Definition hemi_names (hemi : string) (regs : list string) : list string :=
  (fun reg => hemi +:+ "-" +:+ reg) <$> regs.

(** The table [create_vep_fs_lut] writes: reference rows, then new rows. *)
Definition combined_lut (fs_lut : list AtlasEntry) (regions : list TargetRegion)
    : list AtlasEntry :=
  fs_lut ++ vep_fs_new_rows (t_name <$> regions) (t_color <$> regions)
                            (e_name <$> fs_lut).

(** The cortical and the subcortical region names, [vep_regs[vep_iscort]]
    and [vep_regs[~vep_iscort]]. *)
Definition cortical_regs (regions : list TargetRegion) : list string :=
  mask_select (t_name <$> regions) (t_iscort <$> regions).
Definition subcort_regs (regions : list TargetRegion) : list string :=
  mask_select (t_name <$> regions) (negb <$> (t_iscort <$> regions)).

(** Follows the spec's words (4.2): within one hemisphere the regions whose
    prefixed name is absent from the reference atlas, in target order,
    numbered [hnum+1], [hnum+2], ... *)
Definition fs_hemi_spec (hemi : string) (hnum : Z) (fs_regs : list string)
    (regs_colors : list (string * RGBA)) : list AtlasEntry :=
  imap (fun k rc => mkEntry (hnum + 1 + Z.of_nat k) (hemi +:+ "-" +:+ rc.1) rc.2)
       (filter (fun rc => hemi +:+ "-" +:+ rc.1 ∉ fs_regs) regs_colors).

(** Follows the spec's words (4.1): one triple (color, first-seen region,
    later region) for every entry whose key was already seen, in order. *)
Section collisions.
Context {K : Type} `{Countable K} {V : Type}.

Definition collision_at (kvs : list (K * V)) (j : nat) (kv : K * V)
    : list (K * V * V) :=
  match list_find (fun p => p.1 = kv.1) (take j kvs) with
  | Some (_, first) => [(kv.1, first.2, kv.2)]
  | None => []
  end.

Definition collisions (kvs : list (K * V)) : list (K * V * V) :=
  mjoin (imap (collision_at kvs) kvs).

(** The dictionary holds, for every key seen so far, its first value. *)
Definition dct_of (seen : list (K * V)) (dct : gmap K V) : Prop :=
  forall k, dct !! k = (fun x => x.2.2) <$> list_find (fun p => p.1 = k) seen.

End collisions.

(** The errors the validator raises. *)
Definition validation_error (e : error) : Prop :=
  match e with
  | MalformedRuleError | DuplicateColorError _ | MissingRuleError _
  | SubcortCoverageError | OrderingError => True
  | LookupError _ | IndexError _ | IOError _ => False
  end.

(** Resolution of a list of names, each to its first row. *)
Definition resolves (lut : list AtlasEntry) (ns : list string)
    (es : list AtlasEntry) : Prop :=
  Forall2 (fun n e => first_entry lut n = Some e) ns es.

(** Rows [i, i+1, ...] named [ns] and colored as the entries [es]. *)
Definition numbered_rows (i : Z) (ns : list string) (es : list AtlasEntry)
    : list AtlasEntry :=
  imap (fun k ne => mkEntry (i + Z.of_nat k) ne.1 (e_color ne.2)) (zip ns es).

Section lookup_loop_def.
Context {A L St : Type}.
Variable lut : list AtlasEntry.
Variable key : A -> string.
Variable row : St -> A -> AtlasEntry -> L.
Variable next : St -> St.

(** One iteration: resolve the name, write its row, step the state. *)
Definition lookup_step (x : A) (s : St) : Writer L St :=
  match first_entry lut (key x) with
  | Some e => ([row s x e], Ok (next s))
  | None => ([], Raise (LookupError (key x)))
  end.

(** The rows written for items [xs] resolved to [es], from state [s]. *)
Fixpoint written (s : St) (xs : list A) (es : list AtlasEntry) : list L :=
  match xs, es with
  | x :: xs', e :: es' => row s x e :: written (next s) xs' es'
  | _, _ => []
  end.

End lookup_loop_def.

(** The names [create_vep_mrtrix_lut] and [create_subcort_list] look up,
    in iteration order: the Left block, then the Right block. *)
Definition target_names (regs : list string) : list string :=
  hemi_names "Left" regs ++ hemi_names "Right" regs.

(** The first cortical region without a rule. *)
Definition first_missing (newregs cortical : list string) (reg : string) : Prop :=
  exists k, cortical !! k = Some reg /\ ("%H-" +:+ reg ∉ newregs) /\
            forall j reg', cortical !! j = Some reg' -> (j < k)%nat ->
                           "%H-" +:+ reg' ∈ newregs.

(** ** A small atlas, used to run the program *)

Module Example.
Definition fs_lut : list AtlasEntry :=
  [ mkEntry 0 "Unknown" (0, 0, 0, 0);
    mkEntry 17 "Left-Hippocampus" (220, 216, 20, 0);
    mkEntry 53 "Right-Hippocampus" (220, 216, 20, 0) ].

Definition rules : list Rule :=
  [ mkRule "merge" "ctx-%h-a1,ctx-%h-a2" "%H-A";
    mkRule "split" "ctx-%h-b" "%H-B,%1";
    mkRule "rename" "%1" "%H-C" ].

Definition regions : list TargetRegion :=
  [ mkRegion true "A" (10, 20, 30, 0);
    mkRegion true "B" (40, 50, 60, 0);
    mkRegion false "Hippocampus" (9, 9, 9, 0) ].

Definition disk (fs_lut : list AtlasEntry) (rules : list Rule)
    (regions : list TargetRegion) : world :=
  {| w_files := <["FreeSurferColorLUT.txt" := LutFile fs_lut]>
                (<["VepAtlasRules.txt" := RulesFile rules]>
                 (<["VepRegions.txt" := RegionsFile regions]> ∅));
     w_opened := [] |}.

(** The call of the [__main__] block. *)
Definition main : IO unit :=
  create_luts "FreeSurferColorLUT.txt" "VepAtlasRules.txt" "VepRegions.txt"
              "VepFreeSurferColorLut.txt" "VepMrtrixLut.txt"
              "subcort.vep.txt" "VepAparcColorLut.txt".

Definition run_validate (fs_lut : list AtlasEntry) (rules : list Rule)
    (regions : list TargetRegion) : result unit :=
  validate rules (e_name <$> fs_lut) (t_name <$> regions)
           (t_iscort <$> regions) (t_color <$> regions).

End Example.

(** The index sets of the combined table. *)
Definition new_indices (hemi : string) (hnum : Z) (fs_lut : list AtlasEntry)
    (regions : list TargetRegion) : list Z :=
  e_index <$> vep_fs_hemi hemi hnum (e_name <$> fs_lut)
                          (zip (t_name <$> regions) (t_color <$> regions)) 1.

Definition new_left_indices := new_indices "Left" SHIFT_LH.
Definition new_right_indices := new_indices "Right" SHIFT_RH.
Definition reference_indices (fs_lut : list AtlasEntry) : list Z :=
  e_index <$> fs_lut.

(** A target spec of [n] cortical regions [R0], [R1], ... with their rules. *)
Definition many_regions (n : nat) : list TargetRegion :=
  (fun k => mkRegion true ("R" +:+ pretty k) (Z.of_nat k, 0, 0, 0)) <$> seq 0 n.
Definition many_rules (n : nat) : list Rule :=
  (fun k => mkRule "rename" "x" ("%H-R" +:+ pretty k)) <$> seq 0 n.

(** Python's [",".join(parts)], the inverse of [s.split(",")]. *)
Fixpoint join_comma (parts : list string) : string :=
  match parts with
  | [] => EmptyString
  | [p] => p
  | p :: rest => p +:+ "," +:+ join_comma rest
  end.

(** ** Basic facts *)

Lemma py_in_true x l : py_in x l = true <-> x ∈ l.
Proof. unfold py_in. apply bool_decide_eq_true. Qed.

Lemma py_in_false x l : py_in x l = false <-> x ∉ l.
Proof. unfold py_in. apply bool_decide_eq_false. Qed.

Lemma bindR_Ok {A B} (m : result A) (f : A -> result B) b :
  bindR m f = Ok b <-> exists a, m = Ok a /\ f a = Ok b.
Proof.
  destruct m as [a|e]; simpl; split.
  - eauto.
  - intros (a' & [= <-] & ?). done.
  - done.
  - intros (a' & [=] & ?).
Qed.

Lemma assertR_Ok b e : assertR b e = Ok tt <-> b = true.
Proof. destruct b; simpl; split; congruence. Qed.

Lemma forR_Ok {A} (l : list A) body :
  forR l body = Ok tt <-> Forall (fun x => body x = Ok tt) l.
Proof.
  induction l as [|x l IH]; simpl.
  - split; [constructor | done].
  - rewrite Forall_cons, <- IH. destruct (body x) as [[]|e]; simpl.
    + tauto.
    + split; [done | intros [[=] _]].
Qed.

(** A [for] loop raises what its body raises at the first failing element. *)
Lemma forR_Raise {A} (l : list A) body e :
  forR l body = Raise e <->
  exists i x, l !! i = Some x /\ body x = Raise e /\
              forall j y, l !! j = Some y -> (j < i)%nat -> body y = Ok tt.
Proof.
  induction l as [|x l IH]; simpl.
  - split; [done | intros (i & y & Hl & _); by rewrite lookup_nil in Hl].
  - destruct (body x) as [[]|e'] eqn:Hx; simpl.
    + rewrite IH. split.
      * intros (i & y & Hl & Hy & Hlt). exists (S i), y. split_and!; [done..|].
        intros [|j] z Hz Hj; simpl in Hz; [by simplify_eq | apply (Hlt j); [done|lia]].
      * intros ([|i] & y & Hl & Hy & Hlt); simpl in Hl; [congruence|].
        exists i, y. split_and!; [done..|].
        intros j z Hz Hj. apply (Hlt (S j)); [done | lia].
    + split.
      * intros [= ->]. exists 0%nat, x. split_and!; [done..|]. intros; lia.
      * intros ([|i] & y & Hl & Hy & Hlt); simpl in Hl; [congruence|].
        specialize (Hlt 0%nat x eq_refl ltac:(lia)). congruence.
Qed.

Lemma first_entry_Some lut n e :
  first_entry lut n = Some e <->
  exists i, lut !! i = Some e /\ e_name e = n /\
            forall j e', lut !! j = Some e' -> (j < i)%nat -> e_name e' <> n.
Proof.
  unfold first_entry. split.
  - destruct (list_find _ lut) as [[i e']|] eqn:Hf; [|done].
    intros [= <-]. apply list_find_Some in Hf as (Hl & Hn & Hlt). eauto.
  - intros (i & Hl & Hn & Hlt).
    assert (list_find (fun e => e_name e = n) lut = Some (i, e)) as ->; [|done].
    apply list_find_Some. eauto.
Qed.

Lemma first_entry_None lut n :
  first_entry lut n = None <-> n ∉ e_name <$> lut.
Proof.
  unfold first_entry. rewrite fmap_None, list_find_None, list_elem_of_fmap, Forall_forall.
  split.
  - intros Hall (e & -> & Hin). by apply (Hall e).
  - intros Hn e Hin Hname. apply Hn. eauto.
Qed.

Lemma first_entry_is_Some lut n :
  is_Some (first_entry lut n) <-> n ∈ e_name <$> lut.
Proof.
  rewrite <- not_eq_None_Some, first_entry_None.
  destruct (decide (n ∈ e_name <$> lut)); naive_solver.
Qed.

Lemma first_entry_elem lut n e :
  first_entry lut n = Some e -> e ∈ lut /\ e_name e = n.
Proof.
  rewrite first_entry_Some. intros (i & Hl & Hn & _).
  split; [by eapply list_elem_of_lookup_2 | done].
Qed.

(** A name carried by a prefix of the table resolves inside that prefix. *)
Lemma first_entry_app lut lut' n :
  n ∈ e_name <$> lut -> first_entry (lut ++ lut') n = first_entry lut n.
Proof.
  intros Hin. apply first_entry_is_Some in Hin as [e He].
  unfold first_entry in *.
  destruct (list_find _ lut) as [[i e']|] eqn:Hf; [|done].
  by rewrite (list_find_app_l _ _ _ _ _ Hf).
Qed.

(** ** The lookups of the derived builders *)

(** The two-step lookup [col[names.index(n)]] on columns of one table is
    the column value of the first row named [n]. *)
Lemma lookup_columns {A} (f : AtlasEntry -> A) lut n :
  (ind <- py_index (e_name <$> lut) n ;; py_get (f <$> lut) ind)%R
  = match first_entry lut n with
    | Some e => Ok (f e)
    | None => Raise (LookupError n)
    end.
Proof.
  unfold py_index, first_entry. rewrite list_find_fmap.
  destruct (list_find _ lut) as [[i e]|] eqn:Hf; simpl; [|done].
  apply list_find_Some in Hf as (Hl & _ & _).
  unfold py_get. by rewrite list_lookup_fmap, Hl.
Qed.

Lemma liftW_lookup {L A B} (f : AtlasEntry -> A) lut n (k : A -> Writer L B) :
  (ind <- liftW (py_index (e_name <$> lut) n) ;;
   c <- liftW (py_get (f <$> lut) ind) ;; k c)%W
  = match first_entry lut n with
    | Some e => k (f e)
    | None => ([], Raise (LookupError n))
    end.
Proof.
  pose proof (lookup_columns f lut n) as Hc.
  destruct (py_index (e_name <$> lut) n) as [ind|e]; simpl in *.
  - destruct (py_get (f <$> lut) ind) as [c|e]; simpl in *;
      destruct (first_entry lut n) as [e0|]; simplify_eq; [|done..].
    by destruct (k (f e0)).
  - by destruct (first_entry lut n); simplify_eq.
Qed.

Lemma resolves_exists lut ns :
  (forall n, n ∈ ns -> n ∈ e_name <$> lut) -> exists es, resolves lut ns es.
Proof.
  induction ns as [|n ns IH]; intros Hin.
  - exists []. constructor.
  - destruct IH as [es Hes]; [intros; apply Hin; by right|].
    destruct (proj2 (first_entry_is_Some lut n)) as [e He]; [apply Hin; by left|].
    exists (e :: es). by constructor.
Qed.

Lemma numbered_rows_cons i n ns e es :
  numbered_rows i (n :: ns) (e :: es)
  = mkEntry i n (e_color e) :: numbered_rows (i + 1) ns es.
Proof.
  unfold numbered_rows. simpl. f_equal; [f_equal; lia|].
  apply imap_ext. intros k [n' e'] _. simpl. f_equal. lia.
Qed.

Lemma numbered_rows_index i ns es :
  length ns = length es ->
  e_index <$> numbered_rows i ns es = seqZ i (Z.of_nat (length ns)).
Proof.
  revert i es. induction ns as [|n ns IH]; intros i [|e es] Hlen;
    try discriminate; [done|].
  injection Hlen as Hlen.
  rewrite numbered_rows_cons, fmap_cons, IH by done. simpl length.
  rewrite (seqZ_cons i) by lia. simpl e_index. do 2 f_equal; lia.
Qed.

Lemma numbered_rows_name i ns es :
  length ns = length es -> e_name <$> numbered_rows i ns es = ns.
Proof.
  revert i es. induction ns as [|n ns IH]; intros i [|e es] Hlen;
    try discriminate; [done|].
  injection Hlen as Hlen.
  by rewrite numbered_rows_cons, fmap_cons, IH.
Qed.

Lemma numbered_rows_lookup i ns es k n e :
  ns !! k = Some n -> es !! k = Some e ->
  numbered_rows i ns es !! k = Some (mkEntry (i + Z.of_nat k) n (e_color e)).
Proof.
  intros Hn He. unfold numbered_rows. rewrite list_lookup_imap.
  rewrite lookup_zip_with, Hn. simpl. by rewrite He.
Qed.

(** ** Loops that write one row per resolved name *)

Lemma bindW_retW_r {L A} (m : Writer L A) : bindW m retW = m.
Proof. destruct m as [rows [a|e]]; simpl; [by rewrite app_nil_r | done]. Qed.

Lemma forW_app {L A S} (l1 l2 : list A) (body : A -> S -> Writer L S) s :
  forW (l1 ++ l2) body s = (s' <- forW l1 body s ;; forW l2 body s')%W.
Proof.
  revert s. induction l1 as [|x l1 IH]; intros s; simpl.
  - by destruct (forW l2 body s).
  - destruct (body x s) as [rows [s'|e]]; simpl; [|done].
    rewrite IH. destruct (forW l1 body s') as [rows1 [s1|e]]; simpl; [|done].
    destruct (forW l2 body s1) as [rows2 r2]. by rewrite app_assoc.
Qed.

Lemma forW_fmap {L A B S} (f : A -> B) (l : list A)
    (body : B -> S -> Writer L S) s :
  forW (f <$> l) body s = forW l (fun x => body (f x)) s.
Proof.
  revert s. induction l as [|x l IH]; intros s; simpl; [done|].
  destruct (body (f x) s) as [rows [s'|e]]; simpl; [|done]. by rewrite IH.
Qed.

Lemma forW_ext {L A S} (l : list A) (body body' : A -> S -> Writer L S) s :
  (forall x s, body x s = body' x s) -> forW l body s = forW l body' s.
Proof.
  intros Hext. revert s. induction l as [|x l IH]; intros s; simpl; [done|].
  rewrite Hext. destruct (body' x s) as [rows [s'|e]]; simpl; [|done].
  by rewrite IH.
Qed.

Section lookup_loop.
Context {A L St : Type}.
Variable lut : list AtlasEntry.
Variable key : A -> string.
Variable row : St -> A -> AtlasEntry -> L.
Variable next : St -> St.

Local Abbreviation lookup_step := (lookup_step lut key row next).
Local Abbreviation written := (written row next).

(** What the loop does: it writes the rows of the items before the first
    unresolved one, and raises there if there is one. *)
Lemma forW_lookup xs s rows r :
  forW xs lookup_step s = (rows, r) ->
  exists k es,
    resolves lut (key <$> take k xs) es /\ rows = written s (take k xs) es /\
    match r with
    | Ok s' => k = length xs /\ s' = Nat.iter k next s
    | Raise e => exists x, xs !! k = Some x /\ first_entry lut (key x) = None /\
                           e = LookupError (key x)
    end.
Proof.
  revert s rows r. induction xs as [|x xs IH]; intros s rows r; simpl.
  - intros [= <- <-]. exists 0%nat, []. split_and!; try done. constructor.
  - unfold lookup_step at 1.
    destruct (first_entry lut (key x)) as [e|] eqn:He; simpl.
    + destruct (forW xs lookup_step (next s)) as [rows' r'] eqn:Hloop.
      intros [= <- <-]. apply IH in Hloop as (k & es & Hres & -> & Hr).
      exists (S k), (e :: es). split_and!.
      * by constructor.
      * done.
      * destruct r' as [s'|e'].
        -- destruct Hr as [-> ->]. split; [done|].
           by rewrite Nat.iter_succ_r.
        -- done.
    + intros [= <- <-]. exists 0%nat, []. split_and!; [constructor|done|eauto].
Qed.

(** The loop completes when every name resolves. *)
Lemma forW_lookup_resolves xs es s :
  resolves lut (key <$> xs) es ->
  forW xs lookup_step s = (written s xs es, Ok (Nat.iter (length xs) next s)).
Proof.
  revert es s. induction xs as [|x xs IH]; intros es s Hres.
  - by inversion Hres.
  - rewrite fmap_cons in Hres.
    inversion Hres as [|? e ? es' He Hres']; subst. simpl.
    unfold lookup_step at 1. rewrite He. simpl bindW. rewrite (IH es') by done.
    by rewrite <- Nat.iter_succ_r.
Qed.
End lookup_loop.

Lemma resolves_length lut ns es : resolves lut ns es -> length ns = length es.
Proof. apply Forall2_length. Qed.

Lemma resolves_lookup lut ns es k n :
  resolves lut ns es -> ns !! k = Some n ->
  exists e, es !! k = Some e /\ first_entry lut n = Some e.
Proof. intros Hres Hn. by apply (Forall2_lookup_l _ _ _ _ _ Hres Hn). Qed.

(** The rows of the renumbering loops are [numbered_rows]. *)
Lemma written_numbered i ns es :
  written (fun i n e => mkEntry i n (e_color e)) (fun i => i + 1) i ns es
  = numbered_rows i ns es.
Proof.
  revert i es. induction ns as [|n ns IH]; intros i [|e es]; try done.
  simpl. by rewrite numbered_rows_cons, IH.
Qed.

Lemma written_index (ns : list string) es :
  length ns = length es ->
  written (fun (_ : unit) _ e => e_index e) (fun _ => tt) tt ns es = e_index <$> es.
Proof.
  revert es. induction ns as [|n ns IH]; intros [|e es] Hlen; try done.
  simpl. f_equal. apply IH. by injection Hlen.
Qed.

(** ** The derived builders as lookup loops *)

Lemma target_names_length regs :
  length (target_names regs) = (2 * length regs)%nat.
Proof. unfold target_names, hemi_names. rewrite length_app, !length_fmap. lia. Qed.

Lemma forW_hemis {L S} (regs : list string)
    (body : string -> S -> Writer L S) s :
  forW ["Left"; "Right"] (fun hemi s =>
    forW regs (fun reg s => body (hemi +:+ "-" +:+ reg) s) s) s
  = forW (target_names regs) body s.
Proof.
  unfold target_names, hemi_names. rewrite forW_app, !forW_fmap. simpl.
  destruct (forW regs _ s) as [rows [s'|e]]; simpl; [|done].
  by rewrite bindW_retW_r, forW_fmap.
Qed.

Lemma vep_mrtrix_loops vep_regs lut i :
  forW ["Left"; "Right"] (fun hemi i =>
    forW vep_regs (fun reg i =>
      let regname := hemi +:+ "-" +:+ reg in
      (ind <- liftW (py_index (e_name <$> lut) regname) ;;
       c <- liftW (py_get (e_color <$> lut) ind) ;;
       fl_write (mkEntry i regname c) ;;
       retW (i + 1))%W) i) i
  = forW (target_names vep_regs)
         (lookup_step lut id (fun i n e => mkEntry i n (e_color e))
                      (fun i => i + 1)) i.
Proof.
  rewrite <- forW_hemis. apply forW_ext; intros hemi j.
  apply forW_ext; intros reg k. cbv zeta. rewrite liftW_lookup.
  unfold lookup_step, id. by destruct (first_entry lut _).
Qed.

Lemma subcort_loops regs lut :
  subcort_list_body regs (e_name <$> lut) (e_index <$> lut)
  = forW (target_names regs)
         (lookup_step lut id (fun (_ : unit) _ e => e_index e) (fun _ => tt)) tt.
Proof.
  unfold subcort_list_body. rewrite <- forW_hemis.
  apply forW_ext; intros hemi []. apply forW_ext; intros reg [].
  cbv zeta. rewrite liftW_lookup.
  unfold lookup_step, id. by destruct (first_entry lut _).
Qed.

Lemma parc_loop regs lut i :
  forW regs (fun reg i =>
    (ind <- liftW (py_index (e_name <$> lut) ("Left-" +:+ reg)) ;;
     c <- liftW (py_get (e_color <$> lut) ind) ;;
     fl_write (mkEntry (i + 1) reg c) ;;
     retW (i + 1))%W) i
  = forW regs
         (lookup_step lut (fun reg => "Left-" +:+ reg)
                      (fun i reg e => mkEntry (i + 1) reg (e_color e))
                      (fun i => i + 1)) i.
Proof.
  apply forW_ext; intros reg k. rewrite liftW_lookup.
  unfold lookup_step. by destruct (first_entry lut _).
Qed.

(** *** RenumberedLutBuilder *)

(** Every run of the builder: the header row, then one numbered row per
    looked-up name up to the first name missing from the table. *)
Lemma vep_mrtrix_lut_body_run vep_regs lut rows r :
  vep_mrtrix_lut_body vep_regs (e_name <$> lut) (e_color <$> lut) = (rows, r) ->
  exists k es,
    resolves lut (take k (target_names vep_regs)) es /\
    rows = Unknown_row :: numbered_rows 1 (take k (target_names vep_regs)) es /\
    match r with
    | Ok _ => k = length (target_names vep_regs)
    | Raise e => exists n, target_names vep_regs !! k = Some n /\
                           first_entry lut n = None /\ e = LookupError n
    end.
Proof.
  unfold vep_mrtrix_lut_body. rewrite vep_mrtrix_loops.
  destruct (forW _ _ 1) as [rows' r'] eqn:Hloop.
  apply forW_lookup in Hloop as (k & es & Hres & -> & Hr).
  rewrite list_fmap_id in Hres. rewrite written_numbered.
  intros Hrun. exists k, es. destruct r' as [i|e]; simpl in Hrun.
  - injection Hrun as <- <-. rewrite app_nil_r. by destruct Hr.
  - injection Hrun as <- <-. done.
Qed.

(** The builder completes on a table that carries every target name. *)
Lemma vep_mrtrix_lut_body_ok vep_regs lut es :
  resolves lut (target_names vep_regs) es ->
  vep_mrtrix_lut_body vep_regs (e_name <$> lut) (e_color <$> lut)
  = (Unknown_row :: numbered_rows 1 (target_names vep_regs) es, Ok tt).
Proof.
  intros Hres. unfold vep_mrtrix_lut_body. rewrite vep_mrtrix_loops.
  rewrite (forW_lookup_resolves _ _ _ _ _ es) by by rewrite list_fmap_id.
  rewrite written_numbered. simpl. by rewrite app_nil_r.
Qed.

(** *** SubcortIndexBuilder *)

Lemma subcort_list_body_run regs lut inds r :
  subcort_list_body regs (e_name <$> lut) (e_index <$> lut) = (inds, r) ->
  exists k es,
    resolves lut (take k (target_names regs)) es /\
    inds = e_index <$> es /\
    match r with
    | Ok _ => k = length (target_names regs)
    | Raise e => exists n, target_names regs !! k = Some n /\
                           first_entry lut n = None /\ e = LookupError n
    end.
Proof.
  rewrite subcort_loops. intros Hloop.
  apply forW_lookup in Hloop as (k & es & Hres & -> & Hr).
  rewrite list_fmap_id in Hres.
  exists k, es. split_and!; [done| |].
  - apply written_index. by apply resolves_length in Hres.
  - destruct r; [by destruct Hr | done].
Qed.

Lemma subcort_list_body_ok regs lut es :
  resolves lut (target_names regs) es ->
  subcort_list_body regs (e_name <$> lut) (e_index <$> lut)
  = (e_index <$> es, Ok tt).
Proof.
  intros Hres. rewrite subcort_loops.
  rewrite (forW_lookup_resolves _ _ _ _ _ es) by by rewrite list_fmap_id.
  rewrite written_index by by apply resolves_length in Hres.
  f_equal. f_equal. by destruct (Nat.iter _ _ _).
Qed.

(** *** CorticalLutBuilder *)

(** Rows [i+1, i+2, ...] named by the bare regions [regs] and colored as
    the entries [es]. *)
Lemma written_parc i regs es :
  written (fun i reg e => mkEntry (i + 1) reg (e_color e)) (fun i => i + 1)
          i regs es
  = numbered_rows (i + 1) regs es.
Proof.
  revert i es. induction regs as [|reg regs IH]; intros i [|e es]; try done.
  simpl. by rewrite numbered_rows_cons, IH.
Qed.

Lemma parc_lut_body_run regs lut rows r :
  parc_lut_body regs (e_name <$> lut) (e_color <$> lut) = (rows, r) ->
  exists k es,
    resolves lut (hemi_names "Left" (take k regs)) es /\
    rows = Unknown_row :: numbered_rows 1 (take k regs) es /\
    match r with
    | Ok _ => k = length regs
    | Raise e => exists reg, regs !! k = Some reg /\
                             first_entry lut ("Left-" +:+ reg) = None /\
                             e = LookupError ("Left-" +:+ reg)
    end.
Proof.
  unfold parc_lut_body. rewrite parc_loop.
  destruct (forW _ _ 0) as [rows' r'] eqn:Hloop.
  apply forW_lookup in Hloop as (k & es & Hres & -> & Hr).
  rewrite written_parc. simpl Z.add.
  intros Hrun. exists k, es. destruct r' as [i|e]; simpl in Hrun.
  - injection Hrun as <- <-. rewrite app_nil_r. by destruct Hr.
  - injection Hrun as <- <-. done.
Qed.

Lemma parc_lut_body_ok regs lut es :
  resolves lut (hemi_names "Left" regs) es ->
  parc_lut_body regs (e_name <$> lut) (e_color <$> lut)
  = (Unknown_row :: numbered_rows 1 regs es, Ok tt).
Proof.
  intros Hres. unfold parc_lut_body. rewrite parc_loop.
  rewrite (forW_lookup_resolves _ _ _ _ _ es) by done.
  rewrite written_parc. simpl. by rewrite app_nil_r.
Qed.

(** ** FullLutBuilder *)

Lemma vep_fs_hemi_from hemi hnum fs_regs regs_colors i :
  vep_fs_hemi hemi hnum fs_regs regs_colors i
  = imap (fun k rc => mkEntry (hnum + i + Z.of_nat k) (hemi +:+ "-" +:+ rc.1) rc.2)
         (filter (fun rc => hemi +:+ "-" +:+ rc.1 ∉ fs_regs) regs_colors).
Proof.
  revert i. induction regs_colors as [|[reg color] rest IH]; intros i; simpl.
  - done.
  - destruct (py_in _ fs_regs) eqn:Hin.
    + apply py_in_true in Hin. rewrite filter_cons_False by (simpl; tauto).
      apply IH.
    + apply py_in_false in Hin. rewrite filter_cons_True by done. simpl.
      f_equal; [f_equal; lia|]. rewrite IH. apply imap_ext.
      intros k rc _. simpl. f_equal. lia.
Qed.

Lemma vep_fs_hemi_index hemi hnum fs_regs regs_colors i :
  e_index <$> vep_fs_hemi hemi hnum fs_regs regs_colors i
  = seqZ (hnum + i)
         (Z.of_nat (length (vep_fs_hemi hemi hnum fs_regs regs_colors i))).
Proof.
  revert i. induction regs_colors as [|[reg color] rest IH]; intros i; simpl.
  - done.
  - destruct (py_in _ fs_regs); [apply IH|]. simpl length.
    rewrite fmap_cons, IH. simpl e_index.
    rewrite (seqZ_cons (hnum + i)) by lia. do 2 f_equal; lia.
Qed.

Lemma vep_fs_hemi_length hemi hnum fs_regs regs_colors i :
  (length (vep_fs_hemi hemi hnum fs_regs regs_colors i) <= length regs_colors)%nat.
Proof.
  revert i. induction regs_colors as [|[reg color] rest IH]; intros i; simpl.
  - done.
  - destruct (py_in _ fs_regs); simpl; [specialize (IH i) | specialize (IH (i + 1))];
      lia.
Qed.

(** The new indices of a hemisphere lie in [hnum+i .. hnum+i+n-1] for [n]
    target regions. *)
Lemma vep_fs_hemi_index_range hemi hnum fs_regs regs_colors i x :
  x ∈ e_index <$> vep_fs_hemi hemi hnum fs_regs regs_colors i ->
  hnum + i <= x < hnum + i + Z.of_nat (length regs_colors).
Proof.
  rewrite vep_fs_hemi_index, elem_of_seqZ.
  pose proof (vep_fs_hemi_length hemi hnum fs_regs regs_colors i). lia.
Qed.

(** FullLutBuilder emits exactly the prefixed names that the reference
    atlas lacks. *)
Lemma vep_fs_hemi_name hemi hnum fs_regs regs_colors i :
  e_name <$> vep_fs_hemi hemi hnum fs_regs regs_colors i
  = filter (fun n => n ∉ fs_regs) (hemi_names hemi regs_colors.*1).
Proof.
  revert i. induction regs_colors as [|[reg color] rest IH]; intros i; simpl.
  - done.
  - destruct (py_in _ fs_regs) eqn:Hin.
    + apply py_in_true in Hin. rewrite filter_cons_False by tauto. apply IH.
    + apply py_in_false in Hin. rewrite filter_cons_True by done.
      rewrite fmap_cons. simpl e_name. f_equal. apply IH.
Qed.

Lemma zip_regions_fst (regions : list TargetRegion) :
  (zip (t_name <$> regions) (t_color <$> regions)).*1 = t_name <$> regions.
Proof. apply fst_zip. by rewrite !length_fmap. Qed.

Lemma zip_regions_length (regions : list TargetRegion) :
  length (zip (t_name <$> regions) (t_color <$> regions)) = length regions.
Proof. rewrite length_zip, !length_fmap. lia. Qed.

Lemma vep_fs_new_rows_unfold vep_regs vep_colors fs_regs :
  vep_fs_new_rows vep_regs vep_colors fs_regs
  = vep_fs_hemi "Left" SHIFT_LH fs_regs (zip vep_regs vep_colors) 1
    ++ vep_fs_hemi "Right" SHIFT_RH fs_regs (zip vep_regs vep_colors) 1.
Proof. unfold vep_fs_new_rows. simpl. by rewrite app_nil_r. Qed.

Lemma vep_fs_new_rows_name regions fs_regs :
  e_name <$> vep_fs_new_rows (t_name <$> regions) (t_color <$> regions) fs_regs
  = filter (fun n => n ∉ fs_regs) (target_names (t_name <$> regions)).
Proof.
  rewrite vep_fs_new_rows_unfold, fmap_app, !vep_fs_hemi_name, zip_regions_fst.
  unfold target_names. by rewrite filter_app.
Qed.

(** The combined table carries every hemisphere-prefixed target name. *)
Lemma combined_lut_names regions fs_lut n :
  n ∈ target_names (t_name <$> regions) ->
  n ∈ e_name <$> combined_lut fs_lut regions.
Proof.
  intros Hn. unfold combined_lut. rewrite fmap_app, vep_fs_new_rows_name.
  rewrite elem_of_app, list_elem_of_filter.
  destruct (decide (n ∈ e_name <$> fs_lut)); auto.
Qed.

Lemma combined_lut_resolves regions fs_lut :
  exists es,
    resolves (combined_lut fs_lut regions) (target_names (t_name <$> regions)) es.
Proof. apply resolves_exists. intros n. apply combined_lut_names. Qed.

Lemma mask_select_subseteq {A} (a : list A) mask : mask_select a mask ⊆ a.
Proof.
  unfold mask_select. intros x Hx.
  apply list_elem_of_fmap in Hx as ([y b] & -> & Hin).
  apply list_elem_of_filter in Hin as [_ Hin].
  apply list_elem_of_lookup in Hin as [i Hi].
  apply lookup_zip_with_Some in Hi as (y' & b' & [= <- <-] & Hy & _).
  by eapply list_elem_of_lookup_2.
Qed.

Lemma hemi_names_mono hemi (regs regs' : list string) :
  regs ⊆ regs' -> hemi_names hemi regs ⊆ hemi_names hemi regs'.
Proof.
  intros Hsub n. unfold hemi_names. rewrite !list_elem_of_fmap.
  intros (reg & -> & Hreg). eauto.
Qed.

Lemma target_names_mono (regs regs' : list string) :
  regs ⊆ regs' -> target_names regs ⊆ target_names regs'.
Proof.
  intros Hsub n. unfold target_names. rewrite !elem_of_app.
  intros [Hn|Hn]; [left|right]; by eapply hemi_names_mono.
Qed.

Lemma subcort_resolves regions fs_lut :
  exists es,
    resolves (combined_lut fs_lut regions) (target_names (subcort_regs regions)) es.
Proof.
  apply resolves_exists. intros n Hn. apply combined_lut_names.
  eapply target_names_mono; [|done]. apply mask_select_subseteq.
Qed.

Lemma cortical_resolves regions fs_lut :
  exists es,
    resolves (combined_lut fs_lut regions)
             (hemi_names "Left" (cortical_regs regions)) es.
Proof.
  apply resolves_exists. intros n Hn. apply combined_lut_names.
  unfold target_names. apply elem_of_app. left.
  eapply hemi_names_mono; [|done]. apply mask_select_subseteq.
Qed.

(** ** [duplicates] computes the collisions *)

Section duplicates_spec.
Context {K : Type} `{Countable K} {V : Type}.
Implicit Types (kvs seen rest : list (K * V)) (dct : gmap K V).

Lemma dct_of_seen_again seen dct k v :
  dct_of seen dct -> is_Some (dct !! k) -> dct_of (seen ++ [(k, v)]) dct.
Proof.
  intros Hd [v0 Hk] k'. rewrite Hd.
  destruct (list_find (fun p => p.1 = k') seen) as [[i p]|] eqn:Hf.
  - by rewrite (list_find_app_l _ _ _ _ _ Hf).
  - rewrite (list_find_app_r _ _ _ Hf). simpl.
    case_decide as Hkk; [|done]. simpl in Hkk. subst k'.
    rewrite Hd, Hf in Hk. done.
Qed.

Lemma dct_of_insert seen dct k v :
  dct_of seen dct -> dct !! k = None -> dct_of (seen ++ [(k, v)]) (<[k := v]> dct).
Proof.
  intros Hd Hk k'. destruct (decide (k = k')) as [<-|Hne].
  - rewrite lookup_insert_eq. rewrite Hd in Hk. apply fmap_None in Hk.
    rewrite (list_find_app_r _ _ _ Hk). simpl. by rewrite decide_True.
  - rewrite lookup_insert_ne by done. rewrite Hd.
    destruct (list_find (fun p => p.1 = k') seen) as [[i p]|] eqn:Hf.
    + by rewrite (list_find_app_l _ _ _ _ _ Hf).
    + rewrite (list_find_app_r _ _ _ Hf). simpl. by rewrite decide_False.
Qed.

Lemma duplicates_loop_collisions seen rest dct dups :
  dct_of seen dct ->
  duplicates_loop rest dct dups
  = dups ++ mjoin (imap (fun j => collision_at (seen ++ rest) (length seen + j))
                        rest).
Proof.
  revert seen dct dups.
  induction rest as [|[k v] rest IH]; intros seen dct dups Hd; simpl.
  - by rewrite app_nil_r.
  - assert (forall dct' dups', dct_of (seen ++ [(k, v)]) dct' ->
      duplicates_loop rest dct' dups'
      = dups' ++ mjoin (imap ((fun j => collision_at (seen ++ (k, v) :: rest)
                                                    (length seen + j)) ∘ S)
                             rest)) as IH'.
    { intros dct' dups' Hd'. rewrite (IH _ _ _ Hd'). f_equal. f_equal.
      apply imap_ext. intros j p _. simpl.
      rewrite <- app_assoc, length_app. simpl. f_equal. lia. }
    unfold collision_at at 1. rewrite Nat.add_0_r, take_app_length. simpl.
    pose proof (Hd k) as Hk.
    destruct (list_find (fun p => p.1 = k) seen) as [[i first]|] eqn:Hf;
      simpl in Hk; rewrite Hk.
    + rewrite IH' by (apply dct_of_seen_again; [done | by rewrite Hk]).
      by rewrite <- app_assoc.
    + rewrite IH' by by apply dct_of_insert. done.
Qed.

Lemma duplicates_collisions (keys : list K) (values : list V) :
  duplicates keys values = collisions (zip keys values).
Proof.
  unfold duplicates, collisions.
  rewrite (duplicates_loop_collisions [] _ ∅ []); [done|].
  intros k. by rewrite lookup_empty.
Qed.

Lemma collision_at_nil kvs j kv :
  collision_at kvs j kv = [] <->
  forall i p, kvs !! i = Some p -> (i < j)%nat -> p.1 <> kv.1.
Proof.
  unfold collision_at.
  destruct (list_find _ (take j kvs)) as [[i first]|] eqn:Hf.
  - apply list_find_Some in Hf as (Hi & Hk & _).
    apply lookup_take_Some in Hi as [Hi Hlt].
    split; [done|]. intros Hall. by destruct (Hall i first).
  - apply list_find_None in Hf. rewrite Forall_forall in Hf.
    split; [|done]. intros _ i p Hi Hlt. apply Hf.
    apply list_elem_of_lookup. exists i. by apply lookup_take_Some.
Qed.

Lemma mjoin_nil {A} (ls : list (list A)) :
  mjoin ls = [] <-> Forall (fun l => l = []) ls.
Proof.
  induction ls as [|l ls IH]; simpl.
  - split; [constructor | done].
  - rewrite Forall_cons, <- IH. split.
    + by intros [-> ->]%app_eq_nil.
    + by intros [-> ->].
Qed.

(** There is no collision exactly when no two entries share a key. *)
Lemma collisions_nil kvs :
  collisions kvs = [] <->
  forall i j p q, kvs !! i = Some p -> kvs !! j = Some q -> (i < j)%nat ->
                  p.1 <> q.1.
Proof.
  unfold collisions. rewrite mjoin_nil, Forall_forall. split.
  - intros Hall i j p q Hi Hj Hlt.
    eapply (proj1 (collision_at_nil kvs j q)); [|done..].
    apply Hall. apply list_elem_of_lookup. exists j.
    by rewrite list_lookup_imap, Hj.
  - intros Hall l Hl. apply list_elem_of_lookup in Hl as [j Hj].
    rewrite list_lookup_imap in Hj.
    destruct (kvs !! j) as [q|] eqn:Hq; simplify_eq/=.
    apply collision_at_nil. intros i p Hi Hlt. by eapply Hall.
Qed.

(** Every later entry of a shared key is reported, against the first
    entry of that key. *)
Lemma collisions_complete kvs i j p q :
  kvs !! i = Some p -> kvs !! j = Some q -> (i < j)%nat -> p.1 = q.1 ->
  exists i0 first,
    list_find (fun x => x.1 = q.1) kvs = Some (i0, first) /\
    (q.1, first.2, q.2) ∈ collisions kvs.
Proof.
  intros Hi Hj Hlt Hpq.
  assert (is_Some (list_find (fun x => x.1 = q.1) (take j kvs)))
    as [[i0 first] Hf].
  { apply (list_find_elem_of _ _ p); [|done].
    apply list_elem_of_lookup. exists i. by apply lookup_take_Some. }
  exists i0, first. split.
  - rewrite <- (take_drop j kvs) at 1. by apply list_find_app_l.
  - unfold collisions. apply list_elem_of_join. exists (collision_at kvs j q).
    split.
    + unfold collision_at. rewrite Hf. by left.
    + apply list_elem_of_lookup. exists j. by rewrite list_lookup_imap, Hj.
Qed.
End duplicates_spec.

(** ** The validator, check by check *)

Lemma bindR_Raise {A B} (m : result A) (f : A -> result B) e :
  bindR m f = Raise e <-> m = Raise e \/ exists a, m = Ok a /\ f a = Raise e.
Proof.
  destruct m as [a|e']; simpl; split.
  - eauto.
  - intros [[=]|(a' & [= <-] & ?)]. done.
  - intros [= ->]. by left.
  - intros [[= ->]|(a' & [=] & ?)]. done.
Qed.

Lemma assertR_Raise b e e' : assertR b e = Raise e' <-> b = false /\ e' = e.
Proof. destruct b; simpl; split; [done | by intros [[=] _] | by intros [= ->] | by intros [_ ->]]. Qed.

(** The checks in program order. *)
Lemma validate_unfold rules fs_regs vep_regs vep_iscort vep_colors :
  validate rules fs_regs vep_regs vep_iscort vep_colors
  = if forallb (str_contains "%H") (expand_rules rules) then
      match duplicates vep_colors vep_regs with
      | [] =>
          (forR (mask_select vep_regs vep_iscort)
                (check_cortical (expand_rules rules)) ;;
           forR (mask_select vep_regs (negb <$> vep_iscort))
                (fun reg => assertR (subcort_covered (expand_rules rules) fs_regs reg)
                                    SubcortCoverageError) ;;
           assertR (np_all_ge_next vep_iscort) OrderingError)%R
      | dups => Raise (DuplicateColorError dups)
      end
    else Raise MalformedRuleError.
Proof.
  unfold validate, check_rules, check_regions.
  destruct (forallb _ (expand_rules rules)); simpl; [|done].
  by destruct (duplicates vep_colors vep_regs).
Qed.

Lemma check_cortical_Ok newregs reg :
  check_cortical newregs reg = Ok tt <-> "%H-" +:+ reg ∈ newregs.
Proof.
  unfold check_cortical. destruct (py_in _ newregs) eqn:Hin; simpl.
  - apply py_in_true in Hin. done.
  - apply py_in_false in Hin. done.
Qed.

Lemma check_cortical_Raise newregs reg e :
  check_cortical newregs reg = Raise e <->
  ("%H-" +:+ reg ∉ newregs) /\ e = MissingRuleError reg.
Proof.
  unfold check_cortical. destruct (py_in _ newregs) eqn:Hin; simpl.
  - apply py_in_true in Hin. split; [done | by intros [? _]].
  - apply py_in_false in Hin. split; [by intros [= <-] | by intros [_ ->]].
Qed.

Lemma subcort_covered_true newregs fs_regs reg :
  subcort_covered newregs fs_regs reg = true <->
  "%H-" +:+ reg ∈ newregs \/
  ("Left-" +:+ reg ∈ fs_regs /\ "Right-" +:+ reg ∈ fs_regs).
Proof.
  unfold subcort_covered.
  by rewrite orb_true_iff, andb_true_iff, !py_in_true.
Qed.

Lemma forR_cortical_Raise newregs cortical e :
  forR cortical (check_cortical newregs) = Raise e <->
  exists reg, e = MissingRuleError reg /\ first_missing newregs cortical reg.
Proof.
  rewrite forR_Raise. split.
  - intros (k & reg & Hk & [Hnin ->]%check_cortical_Raise & Hbefore).
    exists reg. split; [done|]. exists k. split_and!; [done..|].
    intros j reg' Hj Hlt. apply check_cortical_Ok. by eapply Hbefore.
  - intros (reg & -> & k & Hk & Hnin & Hbefore).
    exists k, reg. split_and!; [done | by apply check_cortical_Raise |].
    intros j reg' Hj Hlt. apply check_cortical_Ok. by eapply Hbefore.
Qed.

Lemma forR_subcort_Raise newregs fs_regs subcort e :
  forR subcort (fun reg => assertR (subcort_covered newregs fs_regs reg)
                                   SubcortCoverageError) = Raise e ->
  e = SubcortCoverageError.
Proof.
  intros (k & reg & _ & [_ ->]%assertR_Raise & _)%forR_Raise. done.
Qed.

(** The validator raises validation errors only. *)
Lemma validate_Raise rules fs_regs vep_regs vep_iscort vep_colors e :
  validate rules fs_regs vep_regs vep_iscort vep_colors = Raise e ->
  validation_error e.
Proof.
  rewrite validate_unfold.
  destruct (forallb _ _); [|by intros [= <-]].
  destruct (duplicates vep_colors vep_regs); [|by intros [= <-]].
  intros [Hc|([] & _ & [Hs|([] & _ & Ho)]%bindR_Raise)]%bindR_Raise.
  - apply forR_cortical_Raise in Hc as (reg & -> & _). done.
  - apply forR_subcort_Raise in Hs as ->. done.
  - apply assertR_Raise in Ho as [_ ->]. done.
Qed.

(** ** The program on the disk *)

Lemma bindIO_Raise {A B} (m : IO A) (f : A -> IO B) w e w' :
  bindIO m f w = (Raise e, w') <->
  m w = (Raise e, w') \/ exists a w1, m w = (Ok a, w1) /\ f a w1 = (Raise e, w').
Proof.
  unfold bindIO. destruct (m w) as [[a|e1] w1]; split.
  - eauto.
  - intros [[=]|(a' & w1' & [= <- <-] & ?)]. done.
  - intros [= -> ->]. by left.
  - intros [[= -> ->]|(a' & w1' & [=] & ?)]. done.
Qed.

Lemma genfromtxt_lut_inv path w r w' :
  genfromtxt_lut path w = (r, w') ->
  w' = w /\ match r with
            | Ok rows => w_files w !! path = Some (LutFile rows)
            | Raise e => e = IOError path
            end.
Proof.
  unfold genfromtxt_lut. destruct (w_files w !! path) as [[| | |]|];
    intros [= <- <-]; done.
Qed.

Lemma genfromtxt_regions_inv path w r w' :
  genfromtxt_regions path w = (r, w') ->
  w' = w /\ match r with
            | Ok rows => w_files w !! path = Some (RegionsFile rows)
            | Raise e => e = IOError path
            end.
Proof.
  unfold genfromtxt_regions. destruct (w_files w !! path) as [[| | |]|];
    intros [= <- <-]; done.
Qed.

Lemma load_rules_inv path w r w' :
  load_rules path w = (r, w') ->
  w' = w /\ match r with
            | Ok rules => w_files w !! path = Some (RulesFile rules)
            | Raise e => e = IOError path
            end.
Proof.
  unfold load_rules. destruct (w_files w !! path) as [[| | |]|];
    intros [= <- <-]; done.
Qed.

(** The builders raise lookup and file errors only. *)
Lemma create_vep_fs_lut_Raise vep_regs vep_colors fs_regs p q w e w' :
  create_vep_fs_lut vep_regs vep_colors fs_regs p q w = (Raise e, w') ->
  ~ validation_error e.
Proof.
  unfold create_vep_fs_lut.
  intros [[_ ->]%genfromtxt_lut_inv|(lines & w1 & _ & Hw)]%bindIO_Raise; [tauto|].
  discriminate Hw.
Qed.

Lemma create_vep_mrtrix_lut_Raise vep_regs p q w e w' :
  create_vep_mrtrix_lut vep_regs p q w = (Raise e, w') -> ~ validation_error e.
Proof.
  unfold create_vep_mrtrix_lut.
  intros [[_ ->]%genfromtxt_lut_inv|(lut & w1 & _ & Hw)]%bindIO_Raise; [tauto|].
  unfold with_open_w in Hw.
  destruct (vep_mrtrix_lut_body _ _ _) as [rows r] eqn:Hrun.
  injection Hw as -> _.
  apply vep_mrtrix_lut_body_run in Hrun as (k & es & _ & _ & n & _ & _ & ->).
  tauto.
Qed.

Lemma create_subcort_list_Raise regs p q w e w' :
  create_subcort_list regs p q w = (Raise e, w') -> ~ validation_error e.
Proof.
  unfold create_subcort_list.
  intros [[_ ->]%genfromtxt_lut_inv|(lut & w1 & _ & Hw)]%bindIO_Raise; [tauto|].
  unfold with_open_w in Hw.
  destruct (subcort_list_body _ _ _) as [rows r] eqn:Hrun.
  injection Hw as -> _.
  apply subcort_list_body_run in Hrun as (k & es & _ & _ & n & _ & _ & ->).
  tauto.
Qed.

Lemma create_parc_lut_Raise regs p q w e w' :
  create_parc_lut regs p q w = (Raise e, w') -> ~ validation_error e.
Proof.
  unfold create_parc_lut.
  intros [[_ ->]%genfromtxt_lut_inv|(lut & w1 & _ & Hw)]%bindIO_Raise; [tauto|].
  unfold with_open_w in Hw.
  destruct (parc_lut_body _ _ _) as [rows r] eqn:Hrun.
  injection Hw as -> _.
  apply parc_lut_body_run in Hrun as (k & es & _ & _ & n & _ & _ & ->).
  tauto.
Qed.

(** A validation error of [create_luts] leaves the disk as it was. *)
Lemma create_luts_validation_error f1 f2 f3 o1 o2 o3 o4 w e w' :
  create_luts f1 f2 f3 o1 o2 o3 o4 w = (Raise e, w') ->
  validation_error e -> w' = w.
Proof.
  unfold create_luts. intros Hrun Hval.
  apply bindIO_Raise in Hrun
    as [[-> _]%genfromtxt_lut_inv|(fs_lut & w1 & [-> _]%genfromtxt_lut_inv & Hrun)];
    [done|].
  apply bindIO_Raise in Hrun
    as [[-> _]%load_rules_inv|(rules & w1 & [-> _]%load_rules_inv & Hrun)];
    [done|].
  apply bindIO_Raise in Hrun as [[= _ <-]|(newregs & w1 & [= _ <-] & Hrun)];
    [done|].
  apply bindIO_Raise in Hrun
    as [[-> _]%genfromtxt_regions_inv
       |(regions & w1 & [-> _]%genfromtxt_regions_inv & Hrun)];
    [done|].
  apply bindIO_Raise in Hrun as [[= _ <-]|([] & w1 & [= _ <-] & Hrun)];
    [done|].
  exfalso.
  apply bindIO_Raise in Hrun
    as [Hb%create_vep_fs_lut_Raise|([] & w1 & _ & Hrun)]; [done|].
  apply bindIO_Raise in Hrun
    as [Hb%create_vep_mrtrix_lut_Raise|([] & w2 & _ & Hrun)]; [done|].
  apply bindIO_Raise in Hrun
    as [Hb%create_subcort_list_Raise|([] & w3 & _ & Hrun)]; [done|].
  by apply create_parc_lut_Raise in Hrun.
Qed.


(** An invalid input: the error of the validator, and the disk untouched. *)
Lemma create_luts_invalid f1 f2 f3 o1 o2 o3 o4 w fs_lut rules regions e :
  w_files w !! f1 = Some (LutFile fs_lut) ->
  w_files w !! f2 = Some (RulesFile rules) ->
  w_files w !! f3 = Some (RegionsFile regions) ->
  validate rules (e_name <$> fs_lut) (t_name <$> regions)
           (t_iscort <$> regions) (t_color <$> regions) = Raise e ->
  create_luts f1 f2 f3 o1 o2 o3 o4 w = (Raise e, w).
Proof.
  intros Hf1 Hf2 Hf3 Hval.
  unfold create_luts, bindIO.
  unfold genfromtxt_lut at 1. rewrite Hf1.
  unfold load_rules. rewrite Hf2. unfold liftIO at 1.
  apply bindR_Raise in Hval as [Hrules|(newregs & Hrules & Hregions)];
    rewrite Hrules; [done|].
  unfold genfromtxt_regions. rewrite Hf3.
  unfold liftIO. by rewrite Hregions.
Qed.

(** ** The program on a small atlas *)

Example example_valid : Example.run_validate Example.fs_lut Example.rules Example.regions = Ok tt.
Proof. reflexivity. Qed.

Example example_main_opens :
  w_opened (Example.main (Example.disk Example.fs_lut Example.rules Example.regions)).2
  = ["VepFreeSurferColorLut.txt"; "VepMrtrixLut.txt"; "subcort.vep.txt";
     "VepAparcColorLut.txt"].
Proof. vm_compute. reflexivity. Qed.

(** The spec's scenario: the hippocampus keeps its reference indices. *)
Example example_main_subcort :
  w_files (Example.main (Example.disk Example.fs_lut Example.rules Example.regions)).2 !! "subcort.vep.txt"
  = Some (IndexFile [17; 53]).
Proof. vm_compute. reflexivity. Qed.

Example example_main_combined :
  w_files (Example.main (Example.disk Example.fs_lut Example.rules Example.regions)).2 !! "VepFreeSurferColorLut.txt"
  = Some (LutFile (Example.fs_lut ++
      [ mkEntry 71001 "Left-A" (10, 20, 30, 0);
        mkEntry 71002 "Left-B" (40, 50, 60, 0);
        mkEntry 72001 "Right-A" (10, 20, 30, 0);
        mkEntry 72002 "Right-B" (40, 50, 60, 0) ])).
Proof. vm_compute. reflexivity. Qed.

Example example_main_aparc :
  w_files (Example.main (Example.disk Example.fs_lut Example.rules Example.regions)).2 !! "VepAparcColorLut.txt"
  = Some (LutFile [ Unknown_row; mkEntry 1 "A" (10, 20, 30, 0);
                    mkEntry 2 "B" (40, 50, 60, 0) ]).
Proof. vm_compute. reflexivity. Qed.
(** ** Index sets of the combined table *)

Lemma new_indices_range hemi hnum fs_lut regions x :
  x ∈ new_indices hemi hnum fs_lut regions ->
  hnum + 1 <= x <= hnum + Z.of_nat (length regions).
Proof.
  intros Hx%vep_fs_hemi_index_range. rewrite zip_regions_length in Hx. lia.
Qed.

(** ** The claims *)

(** *** C1: disjointness of the index sets *)

(** C1, as stated, fails: the validator never looks at the reference
    indices, so a valid input may carry a reference row numbered 71001,
    the index FullLutBuilder gives to the first new Left region. *)
Lemma index_disjointness_counterexample :
  let fs_lut := Example.fs_lut ++ [mkEntry 71001 "Vendor-Label" (7, 7, 7, 0)] in
  Example.run_validate fs_lut Example.rules Example.regions = Ok tt /\
  71001 ∈ new_left_indices fs_lut Example.regions /\
  71001 ∈ reference_indices fs_lut.
Proof.
  split_and!.
  - reflexivity.
  - vm_compute. left.
  - vm_compute. do 3 right. left.
Qed.

(** C1 (amended): for every input, accepted by the validator or not, with
    at most 1000 target regions and no reference index in 71001..73000, the
    new Left indices, the new Right indices and the reference indices are
    pairwise disjoint. *)
Theorem index_disjointness (fs_lut : list AtlasEntry) (regions : list TargetRegion) :
  (length regions <= 1000)%nat ->
  Forall (fun x => ~ (SHIFT_LH < x <= SHIFT_RH + 1000)) (reference_indices fs_lut) ->
  (forall x, x ∈ new_left_indices fs_lut regions ->
             x ∉ new_right_indices fs_lut regions) /\
  (forall x, x ∈ new_left_indices fs_lut regions -> x ∉ reference_indices fs_lut) /\
  (forall x, x ∈ new_right_indices fs_lut regions -> x ∉ reference_indices fs_lut).
Proof.
  intros Hlen Href. rewrite Forall_forall in Href.
  unfold new_left_indices, new_right_indices.
  split_and!; intros x Hx%new_indices_range.
  - intros Hx'%new_indices_range. unfold SHIFT_LH, SHIFT_RH in *. lia.
  - intros Hx'%Href. unfold SHIFT_LH, SHIFT_RH in *. lia.
  - intros Hx'%Href. unfold SHIFT_LH, SHIFT_RH in *. lia.
Qed.

(** The bound on the number of regions is needed as well: with 1001 new
    regions per hemisphere the Left block reaches 72001, the first index of
    the Right block. *)
Lemma left_right_overlap :
  (Example.run_validate Example.fs_lut (many_rules 1001) (many_regions 1001)
   = Ok tt) /\
  bool_decide (72001 ∈ new_left_indices Example.fs_lut (many_regions 1001)) = true /\
  bool_decide (72001 ∈ new_right_indices Example.fs_lut (many_regions 1001)) = true.
Proof. split_and!; vm_compute; reflexivity. Qed.

(** The theorem on the example atlas, at the first new Left index. *)
Lemma index_disjointness_witness :
  (length Example.regions <= 1000)%nat /\
  (71001 ∉ new_right_indices Example.fs_lut Example.regions) /\
  (71001 ∉ reference_indices Example.fs_lut).
Proof.
  assert (length Example.regions <= 1000)%nat as Hlen by (simpl; lia).
  assert (Forall (fun x => ~ (SHIFT_LH < x <= SHIFT_RH + 1000))
                 (reference_indices Example.fs_lut)) as Href
    by (unfold SHIFT_LH, SHIFT_RH; repeat constructor; simpl; lia).
  assert (71001 ∈ new_left_indices Example.fs_lut Example.regions) as Hin
    by (vm_compute; left).
  destruct (index_disjointness Example.fs_lut Example.regions Hlen Href)
    as (Hlr & Hlref & _).
  split_and!; [exact Hlen | exact (Hlr _ Hin) | exact (Hlref _ Hin)].
Defined.

(** *** C5: the numbering loop of FullLutBuilder *)

(** C5: within a hemisphere, from counter [i], a region whose prefixed name
    is in the reference atlas is skipped and leaves [i] as it is, any other
    region is emitted with index [hnum + i] and its target color and the
    loop goes on from [i + 1]; started at [i = 1] the new entries are the
    regions absent from the atlas, in target order, numbered [hnum+1],
    [hnum+2], ..., and the table gets the Left block, then the Right one. *)
Theorem full_lut_numbering (fs_regs : list string) :
  (forall hemi hnum reg color rest i,
     hemi +:+ "-" +:+ reg ∈ fs_regs ->
     vep_fs_hemi hemi hnum fs_regs ((reg, color) :: rest) i
     = vep_fs_hemi hemi hnum fs_regs rest i) /\
  (forall hemi hnum reg color rest i,
     hemi +:+ "-" +:+ reg ∉ fs_regs ->
     vep_fs_hemi hemi hnum fs_regs ((reg, color) :: rest) i
     = mkEntry (hnum + i) (hemi +:+ "-" +:+ reg) color
       :: vep_fs_hemi hemi hnum fs_regs rest (i + 1)) /\
  (forall hemi hnum regs_colors,
     vep_fs_hemi hemi hnum fs_regs regs_colors 1
     = fs_hemi_spec hemi hnum fs_regs regs_colors) /\
  (forall vep_regs vep_colors,
     vep_fs_new_rows vep_regs vep_colors fs_regs
     = fs_hemi_spec "Left" SHIFT_LH fs_regs (zip vep_regs vep_colors)
       ++ fs_hemi_spec "Right" SHIFT_RH fs_regs (zip vep_regs vep_colors)).
Proof.
  assert (forall hemi hnum regs_colors,
            vep_fs_hemi hemi hnum fs_regs regs_colors 1
            = fs_hemi_spec hemi hnum fs_regs regs_colors) as Hspec.
  { intros. apply vep_fs_hemi_from. }
  split_and!.
  - intros hemi hnum reg color rest i Hin%py_in_true. simpl. by rewrite Hin.
  - intros hemi hnum reg color rest i Hin%py_in_false. simpl. by rewrite Hin.
  - done.
  - intros. by rewrite vep_fs_new_rows_unfold, !Hspec.
Qed.

(** *** C2: the renumbered table *)

(** On every table, a completed run of RenumberedLutBuilder wrote the
    header row and then one row per target name, numbered from 1. *)
Lemma vep_mrtrix_lut_body_complete vep_regs lut rows :
  vep_mrtrix_lut_body vep_regs (e_name <$> lut) (e_color <$> lut) = (rows, Ok tt) ->
  exists es,
    resolves lut (target_names vep_regs) es /\
    rows = Unknown_row :: numbered_rows 1 (target_names vep_regs) es.
Proof.
  intros (k & es & Hres & -> & ->)%vep_mrtrix_lut_body_run.
  rewrite firstn_all in Hres. rewrite firstn_all. eauto.
Qed.

(** C2, as stated, fails: with the three target regions of the example the
    renumbered table holds the indices 0..6, not 0..3. *)
Lemma renumbered_indices_counterexample :
  exists rows,
    w_files (Example.main (Example.disk Example.fs_lut Example.rules
                                        Example.regions)).2
      !! "VepMrtrixLut.txt" = Some (LutFile rows) /\
    e_index <$> rows = [0; 1; 2; 3; 4; 5; 6] /\
    e_index <$> rows <> seqZ 0 (Z.of_nat (length Example.regions) + 1).
Proof.
  eexists. split_and!.
  - vm_compute. reflexivity.
  - reflexivity.
  - vm_compute. discriminate.
Qed.

(** C2 (amended): on the table FullLutBuilder wrote, RenumberedLutBuilder
    completes, and its indices are exactly the gap-free sequence 0..N where
    N is twice the number of TargetRegion entries (one row per region and
    hemisphere); index 0 is the "Unknown" row and the indices 1..N run over
    the Left block followed by the Right block. *)
Theorem renumbered_indices_sequential (fs_lut : list AtlasEntry)
    (regions : list TargetRegion) :
  let vep_regs := t_name <$> regions in
  let lut := combined_lut fs_lut regions in
  exists rows,
    vep_mrtrix_lut_body vep_regs (e_name <$> lut) (e_color <$> lut)
    = (Unknown_row :: rows, Ok tt) /\
    e_index <$> (Unknown_row :: rows)
    = seqZ 0 (2 * Z.of_nat (length regions) + 1) /\
    e_name <$> rows = hemi_names "Left" vep_regs ++ hemi_names "Right" vep_regs.
Proof.
  intros vep_regs lut.
  destruct (combined_lut_resolves regions fs_lut) as [es Hres].
  pose proof (resolves_length _ _ _ Hres) as Hlen.
  exists (numbered_rows 1 (target_names vep_regs) es). split_and!.
  - by apply vep_mrtrix_lut_body_ok.
  - rewrite fmap_cons, numbered_rows_index by done.
    rewrite target_names_length. unfold vep_regs. rewrite length_fmap.
    rewrite (seqZ_cons 0) by lia. simpl e_index. do 2 f_equal; lia.
  - by rewrite numbered_rows_name.
Qed.

(** *** C3: the derived colors are those of the combined table *)

Lemma numbered_rows_resolved lut i ns es row :
  resolves lut ns es -> row ∈ numbered_rows i ns es ->
  exists e, first_entry lut (e_name row) = Some e /\ e_color row = e_color e.
Proof.
  intros Hres Hrow. apply list_elem_of_lookup in Hrow as [k Hk].
  unfold numbered_rows in Hk. rewrite list_lookup_imap in Hk.
  destruct (zip ns es !! k) as [[n e]|] eqn:Hz; simplify_eq/=.
  apply lookup_zip_with_Some in Hz as (n' & e' & [= <- <-] & Hn & He).
  destruct (resolves_lookup _ _ _ _ _ Hres Hn) as (e'' & He'' & Hfirst).
  exists e. split; [congruence | done].
Qed.

(** C3, as stated, fails on the header row: the renumbered table always
    starts with the fixed row [0 Unknown 0 0 0 0], which is not looked up,
    so when the reference atlas colors its "Unknown" label otherwise the
    name is in both tables with two colors. *)
Lemma derived_colors_counterexample :
  let fs_lut := [ mkEntry 0 "Unknown" (25, 5, 25, 0);
                  mkEntry 17 "Left-Hippocampus" (220, 216, 20, 0);
                  mkEntry 53 "Right-Hippocampus" (220, 216, 20, 0) ] in
  let w := (Example.main (Example.disk fs_lut Example.rules Example.regions)).2 in
  exists lut rows,
    w_files w !! "VepFreeSurferColorLut.txt" = Some (LutFile lut) /\
    w_files w !! "VepMrtrixLut.txt" = Some (LutFile rows) /\
    e_color <$> filter (fun e => e_name e = "Unknown") lut = [(25, 5, 25, 0)] /\
    e_color <$> filter (fun e => e_name e = "Unknown") rows = [(0, 0, 0, 0)].
Proof.
  eexists _, _. split_and!.
  - vm_compute. reflexivity.
  - vm_compute. reflexivity.
  - vm_compute. reflexivity.
  - vm_compute. reflexivity.
Qed.

(** C3 (amended): whatever table the two builders read, every row that
    RenumberedLutBuilder writes after its fixed "Unknown" header carries the
    color that the table records for the row's name (at its first row of
    that name), and the [k]-th row CorticalLutBuilder writes after its
    header is named by the [k]-th cortical region and carries the color
    that the table records for the region's Left-hemisphere name. *)
Theorem derived_colors_agree (lut : list AtlasEntry) (vep_regs cortical : list string)
    (rows prows : list AtlasEntry) (r pr : result unit) :
  vep_mrtrix_lut_body vep_regs (e_name <$> lut) (e_color <$> lut) = (rows, r) ->
  parc_lut_body cortical (e_name <$> lut) (e_color <$> lut) = (prows, pr) ->
  (forall row, row ∈ tail rows ->
     exists e, first_entry lut (e_name row) = Some e /\ e ∈ lut /\
               e_color row = e_color e) /\
  (forall k row, tail prows !! k = Some row ->
     exists e, cortical !! k = Some (e_name row) /\
               first_entry lut ("Left-" +:+ e_name row) = Some e /\ e ∈ lut /\
               e_color row = e_color e).
Proof.
  intros (k & es & Hres & -> & _)%vep_mrtrix_lut_body_run
         (pk & pes & Hpres & -> & _)%parc_lut_body_run.
  split.
  - intros row Hrow. simpl in Hrow.
    destruct (numbered_rows_resolved _ _ _ _ _ Hres Hrow) as (e & He & Hc).
    exists e. split_and!; [done | by apply first_entry_elem in He as [? _] | done].
  - intros j row Hj. simpl in Hj.
    unfold numbered_rows in Hj. rewrite list_lookup_imap in Hj.
    destruct (zip (take pk cortical) pes !! j) as [[reg e]|] eqn:Hz;
      simplify_eq/=.
    apply lookup_zip_with_Some in Hz as (reg' & e' & [= <- <-] & Hreg & He).
    assert (hemi_names "Left" (take pk cortical) !! j = Some ("Left-" +:+ reg))
      as Hn by (unfold hemi_names; by rewrite list_lookup_fmap, Hreg).
    destruct (resolves_lookup _ _ _ _ _ Hpres Hn) as (e'' & He'' & Hfirst).
    assert (e'' = e) as -> by congruence.
    exists e.
    split_and!; [| done | by apply first_entry_elem in Hfirst as [? _] | done].
    by apply lookup_take_Some in Hreg as [Hreg _].
Qed.

(** The theorem on the example atlas, at the renumbered row of the
    hippocampus. *)
Lemma derived_colors_agree_witness :
  let lut := combined_lut Example.fs_lut Example.regions in
  exists e, first_entry lut "Left-Hippocampus" = Some e /\ e ∈ lut /\
            (220, 216, 20, 0) = e_color e.
Proof.
  intros lut.
  pose (rows := [ Unknown_row;
    mkEntry 1 "Left-A" (10, 20, 30, 0); mkEntry 2 "Left-B" (40, 50, 60, 0);
    mkEntry 3 "Left-Hippocampus" (220, 216, 20, 0);
    mkEntry 4 "Right-A" (10, 20, 30, 0); mkEntry 5 "Right-B" (40, 50, 60, 0);
    mkEntry 6 "Right-Hippocampus" (220, 216, 20, 0) ]).
  pose (prows := [ Unknown_row; mkEntry 1 "A" (10, 20, 30, 0);
                   mkEntry 2 "B" (40, 50, 60, 0) ]).
  assert (vep_mrtrix_lut_body (t_name <$> Example.regions) (e_name <$> lut)
            (e_color <$> lut) = (rows, Ok tt)) as Hrows
    by (vm_compute; reflexivity).
  assert (parc_lut_body (cortical_regs Example.regions) (e_name <$> lut)
            (e_color <$> lut) = (prows, Ok tt)) as Hprows
    by (vm_compute; reflexivity).
  apply (proj1 (derived_colors_agree lut _ _ rows prows _ _ Hrows Hprows)
               (mkEntry 3 "Left-Hippocampus" (220, 216, 20, 0))).
  simpl. do 2 right. left.
Defined.

(** *** C9: the subcortical index list *)

(** C9: on the table FullLutBuilder wrote, SubcortIndexBuilder completes
    and emits, for the Left-prefixed names of the subcortical regions in
    target order and then for their Right-prefixed names, the index of the
    row that the combined table holds for the name: one integer per
    subcortical region and hemisphere, taken from the combined table. *)
Theorem subcort_index_list (fs_lut : list AtlasEntry) (regions : list TargetRegion) :
  let lut := combined_lut fs_lut regions in
  let subcort := subcort_regs regions in
  exists (inds : list Z) (es : list AtlasEntry),
    subcort_list_body subcort (e_name <$> lut) (e_index <$> lut) = (inds, Ok tt) /\
    Forall2 (fun n e => first_entry lut n = Some e /\ e ∈ lut /\ e_name e = n)
            (hemi_names "Left" subcort ++ hemi_names "Right" subcort) es /\
    inds = e_index <$> es /\
    length inds = (2 * length subcort)%nat.
Proof.
  intros lut subcort.
  destruct (subcort_resolves regions fs_lut) as [es Hres].
  exists (e_index <$> es), es. split_and!.
  - by apply subcort_list_body_ok.
  - eapply Forall2_impl; [exact Hres|]. intros n e He. simpl in He.
    split; [done|]. by apply first_entry_elem in He as [? ?].
  - done.
  - rewrite length_fmap, <- (resolves_length _ _ _ Hres).
    apply target_names_length.
Qed.

(** *** C10: target regions that reuse a reference label *)

Lemma py_index_first names n i :
  py_index names n = Ok i ->
  names !! i = Some n /\ forall j, (j < i)%nat -> names !! j <> Some n.
Proof.
  unfold py_index.
  destruct (list_find _ names) as [[i' x]|] eqn:Hf; [|done].
  intros [= ->]. apply list_find_Some in Hf as (Hi & -> & Hbefore).
  split; [done|]. intros j Hj Hn. by apply (Hbefore j n).
Qed.

Lemma vep_fs_new_rows_fresh regions fs_lut row :
  row ∈ vep_fs_new_rows (t_name <$> regions) (t_color <$> regions)
                        (e_name <$> fs_lut) ->
  e_name row ∉ e_name <$> fs_lut.
Proof.
  intros Hrow.
  assert (e_name row ∈ e_name <$> vep_fs_new_rows (t_name <$> regions)
            (t_color <$> regions) (e_name <$> fs_lut)) as Hn
    by (apply list_elem_of_fmap; eauto).
  rewrite vep_fs_new_rows_name in Hn. by apply list_elem_of_filter in Hn as [? _].
Qed.

(** In the combined table a name of the reference atlas resolves to its
    reference row. *)
Lemma combined_lut_reference fs_lut regions n e :
  first_entry fs_lut n = Some e ->
  first_entry (combined_lut fs_lut regions) n = Some e.
Proof.
  intros He. unfold combined_lut. rewrite first_entry_app; [done|].
  apply first_entry_is_Some. eauto.
Qed.

(** C10: every [names.index] lookup yields the first position of the name;
    FullLutBuilder emits no row whose name the reference atlas has; so on
    the table it wrote the three derived builders complete and, for a
    target name that the reference atlas already has, the renumbered row
    carries the color of the reference row, the subcortical list carries
    its index, and the cortical row (for the Left name of a cortical
    region) carries its color, whatever color the target spec lists. *)
Theorem reused_reference_label (fs_lut : list AtlasEntry)
    (regions : list TargetRegion) :
  let lut := combined_lut fs_lut regions in
  let vep_regs := t_name <$> regions in
  (forall names n i, py_index names n = Ok i ->
     names !! i = Some n /\ forall j, (j < i)%nat -> names !! j <> Some n) /\
  (forall row, row ∈ vep_fs_new_rows vep_regs (t_color <$> regions)
                                     (e_name <$> fs_lut) ->
     e_name row ∉ e_name <$> fs_lut) /\
  exists rows inds prows,
    vep_mrtrix_lut_body vep_regs (e_name <$> lut) (e_color <$> lut)
    = (Unknown_row :: rows, Ok tt) /\
    subcort_list_body (subcort_regs regions) (e_name <$> lut) (e_index <$> lut)
    = (inds, Ok tt) /\
    parc_lut_body (cortical_regs regions) (e_name <$> lut) (e_color <$> lut)
    = (Unknown_row :: prows, Ok tt) /\
    forall n e, first_entry fs_lut n = Some e ->
      (forall k, target_names vep_regs !! k = Some n ->
         rows !! k = Some (mkEntry (1 + Z.of_nat k) n (e_color e))) /\
      (forall k, target_names (subcort_regs regions) !! k = Some n ->
         inds !! k = Some (e_index e)) /\
      (forall k reg, cortical_regs regions !! k = Some reg ->
         n = "Left-" +:+ reg ->
         prows !! k = Some (mkEntry (1 + Z.of_nat k) reg (e_color e))).
Proof.
  intros lut vep_regs. split_and!.
  - apply py_index_first.
  - apply vep_fs_new_rows_fresh.
  - destruct (combined_lut_resolves regions fs_lut) as [es Hres].
    destruct (subcort_resolves regions fs_lut) as [es_sub Hsub].
    destruct (cortical_resolves regions fs_lut) as [es_cort Hcort].
    exists (numbered_rows 1 (target_names vep_regs) es), (e_index <$> es_sub),
           (numbered_rows 1 (cortical_regs regions) es_cort).
    split_and!.
    + by apply vep_mrtrix_lut_body_ok.
    + by apply subcort_list_body_ok.
    + by apply parc_lut_body_ok.
    + intros n e He. apply (combined_lut_reference _ regions) in He.
      split_and!.
      * intros k Hk.
        destruct (resolves_lookup _ _ _ _ _ Hres Hk) as (e' & He' & Hfirst).
        assert (e' = e) as -> by (unfold lut in *; congruence).
        by apply numbered_rows_lookup.
      * intros k Hk.
        destruct (resolves_lookup _ _ _ _ _ Hsub Hk) as (e' & He' & Hfirst).
        assert (e' = e) as -> by (unfold lut in *; congruence).
        by rewrite list_lookup_fmap, He'.
      * intros k reg Hk ->.
        assert (hemi_names "Left" (cortical_regs regions) !! k
                = Some ("Left-" +:+ reg)) as Hn
          by (unfold hemi_names; by rewrite list_lookup_fmap, Hk).
        destruct (resolves_lookup _ _ _ _ _ Hcort Hn) as (e' & He' & Hfirst).
        assert (e' = e) as -> by (unfold lut in *; congruence).
        by apply numbered_rows_lookup.
Qed.

(** The example: the target spec colors the hippocampus (9, 9, 9, 0), the
    reference atlas (220, 216, 20, 0); the renumbered table has the
    latter. *)
Example reused_label_color :
  w_files (Example.main (Example.disk Example.fs_lut Example.rules
                                      Example.regions)).2 !! "VepMrtrixLut.txt"
  = Some (LutFile
      [ Unknown_row;
        mkEntry 1 "Left-A" (10, 20, 30, 0); mkEntry 2 "Left-B" (40, 50, 60, 0);
        mkEntry 3 "Left-Hippocampus" (220, 216, 20, 0);
        mkEntry 4 "Right-A" (10, 20, 30, 0); mkEntry 5 "Right-B" (40, 50, 60, 0);
        mkEntry 6 "Right-Hippocampus" (220, 216, 20, 0) ]).
Proof. vm_compute. reflexivity. Qed.

(** *** C4: the duplicate-color check *)

Section collisions_sound.
Context {K : Type} `{Countable K} {V : Type}.

(** Every reported triple pairs a later entry with the first entry of
    its key. *)
Lemma collisions_sound (kvs : list (K * V)) (x : K * V * V) :
  x ∈ collisions kvs ->
  exists i j p q,
    (i < j)%nat /\ kvs !! i = Some p /\ kvs !! j = Some q /\ p.1 = q.1 /\
    x = (q.1, p.2, q.2) /\
    forall i' p', kvs !! i' = Some p' -> (i' < i)%nat -> p'.1 <> q.1.
Proof.
  unfold collisions. intros (l & Hx & Hl)%list_elem_of_join.
  apply list_elem_of_lookup in Hl as [j Hj].
  rewrite list_lookup_imap in Hj.
  destruct (kvs !! j) as [q|] eqn:Hq; simplify_eq/=.
  unfold collision_at in Hx.
  destruct (list_find _ (take j kvs)) as [[i p]|] eqn:Hf;
    [|by apply elem_of_nil in Hx].
  apply list_elem_of_singleton in Hx as ->.
  apply list_find_Some in Hf as (Hi & Hk & Hbefore).
  apply lookup_take_Some in Hi as [Hi Hlt].
  exists i, j, p, q. split_and!; try done.
  intros i' p' Hi' Hlt'. apply (Hbefore i'); [|done].
  apply lookup_take_Some. split; [done | lia].
Qed.

Lemma collisions_not_nil (kvs : list (K * V)) :
  collisions kvs <> [] <->
  exists i j p q, (i < j)%nat /\ kvs !! i = Some p /\ kvs !! j = Some q /\
                  p.1 = q.1.
Proof.
  split.
  - destruct (collisions kvs) as [|x l] eqn:Hc; [done|]. intros _.
    destruct (collisions_sound kvs x) as (i & j & p & q & ? & ? & ? & ? & _).
    { rewrite Hc. by left. }
    by exists i, j, p, q.
  - intros (i & j & p & q & Hlt & Hi & Hj & Hpq) Hnil.
    by apply (proj1 (collisions_nil kvs) Hnil i j p q).
Qed.
End collisions_sound.

Lemma zip_columns {A B C} (f : A -> B) (g : A -> C) (l : list A) :
  zip (f <$> l) (g <$> l) = (fun x => (f x, g x)) <$> l.
Proof. induction l as [|x l IH]; [done|]. rewrite !fmap_cons. simpl. by rewrite IH. Qed.

(** C4, as stated, fails: the check of the rule outputs comes first, so
    with a rule output that lacks the hemisphere placeholder two regions of
    one color are not reported: the first assertion fails instead. *)
Lemma duplicate_color_counterexample :
  let rules := [mkRule "rename" "ctx-lh-a" "A"; mkRule "rename" "ctx-lh-b" "%H-B"] in
  let regions := [mkRegion true "A" (10, 20, 30, 0); mkRegion true "B" (10, 20, 30, 0)] in
  (exists ri rj, regions !! 0%nat = Some ri /\ regions !! 1%nat = Some rj /\
                 t_color ri = t_color rj) /\
  Example.run_validate Example.fs_lut rules regions = Raise MalformedRuleError /\
  ~ exists l, Example.run_validate Example.fs_lut rules regions
              = Raise (DuplicateColorError l).
Proof.
  split_and!.
  - by eexists _, _.
  - reflexivity.
  - intros [l Hl]. vm_compute in Hl. discriminate Hl.
Qed.

(** C4 (amended): the validator raises DuplicateColorError exactly when
    the check of the rule outputs has passed and at least two TargetRegion
    entries share an RGBA color; the error then carries the complete list
    of collisions of the whole target set, in target order: one triple
    (color, first-seen region, later region) for every entry whose color an
    earlier entry has, against the first entry of that color. *)
Theorem duplicate_color_error (rules : list Rule) (fs_regs : list string)
    (regions : list TargetRegion) :
  let vep_regs := t_name <$> regions in
  let vep_colors := t_color <$> regions in
  let dups := collisions (zip vep_colors vep_regs) in
  (forall l,
     validate rules fs_regs vep_regs (t_iscort <$> regions) vep_colors
     = Raise (DuplicateColorError l) <->
     forallb (str_contains "%H") (expand_rules rules) = true /\
     l = dups /\ l <> []) /\
  (dups <> [] <->
   exists i j ri rj, (i < j)%nat /\ regions !! i = Some ri /\
                     regions !! j = Some rj /\ t_color ri = t_color rj) /\
  (forall x, x ∈ dups ->
     exists i j ri rj,
       (i < j)%nat /\ regions !! i = Some ri /\ regions !! j = Some rj /\
       t_color ri = t_color rj /\ x = (t_color rj, t_name ri, t_name rj) /\
       forall i' r', regions !! i' = Some r' -> (i' < i)%nat ->
                     t_color r' <> t_color rj) /\
  (forall i j ri rj,
     (i < j)%nat -> regions !! i = Some ri -> regions !! j = Some rj ->
     t_color ri = t_color rj ->
     exists i0 r0,
       list_find (fun r => t_color r = t_color rj) regions = Some (i0, r0) /\
       (t_color rj, t_name r0, t_name rj) ∈ dups).
Proof.
  intros vep_regs vep_colors dups.
  assert (zip vep_colors vep_regs
          = (fun r => (t_color r, t_name r)) <$> regions) as Hzip
    by apply zip_columns.
  assert (forall i p, zip vep_colors vep_regs !! i = Some p <->
            exists r, regions !! i = Some r /\ p = (t_color r, t_name r)) as Hlk.
  { intros i p. rewrite Hzip, list_lookup_fmap, fmap_Some. naive_solver. }
  split_and!.
  - intros l. rewrite validate_unfold, duplicates_collisions. fold dups.
    destruct (forallb _ _).
    + destruct dups as [|x dups'] eqn:Hd.
      * split; [|by intros (_ & -> & ?)].
        intros [Hc|([] & _ & [Hs|([] & _ & Ho)]%bindR_Raise)]%bindR_Raise.
        -- by apply forR_cortical_Raise in Hc as (reg & [=] & _).
        -- by apply forR_subcort_Raise in Hs.
        -- by apply assertR_Raise in Ho as [_ [=]].
      * split; [by intros [= <-] | by intros (_ & -> & _)].
    + split; [done | by intros ([=] & _)].
  - unfold dups. rewrite collisions_not_nil. split.
    + intros (i & j & p & q & Hlt & Hi & Hj & Hpq).
      apply Hlk in Hi as (ri & Hi & ->). apply Hlk in Hj as (rj & Hj & ->).
      by exists i, j, ri, rj.
    + intros (i & j & ri & rj & Hlt & Hi & Hj & Hc).
      exists i, j, (t_color ri, t_name ri), (t_color rj, t_name rj).
      split_and!; [done | apply Hlk; eauto | apply Hlk; eauto | done].
  - intros x Hx.
    apply collisions_sound in Hx
      as (i & j & p & q & Hlt & Hi & Hj & Hpq & -> & Hbefore).
    apply Hlk in Hi as (ri & Hi & ->). apply Hlk in Hj as (rj & Hj & ->).
    exists i, j, ri, rj. split_and!; try done.
    intros i' r' Hi' Hlt'.
    apply (Hbefore i' (t_color r', t_name r')); [apply Hlk; eauto | done].
  - intros i j ri rj Hlt Hi Hj Hc.
    destruct (collisions_complete (zip vep_colors vep_regs) i j
                (t_color ri, t_name ri) (t_color rj, t_name rj))
      as (i0 & first & Hf & Hin); [apply Hlk; eauto | apply Hlk; eauto | done..|].
    rewrite Hzip, list_find_fmap in Hf.
    destruct (list_find _ regions) as [[i0' r0]|] eqn:Hfr; simplify_eq/=.
    exists i0, r0. split; [|done].
    rewrite <- Hfr. done.
Qed.

(** *** C7: cortical regions without a rule *)

(** C7, as stated, fails: the loop raises at the first cortical region
    without a rule, so a second such region is never named. *)
Lemma missing_rule_counterexample :
  let regions := [mkRegion true "A" (10, 20, 30, 0); mkRegion true "B" (40, 50, 60, 0);
                  mkRegion true "C" (70, 80, 90, 0)] in
  "B" ∈ cortical_regs regions /\
  ("%H-B" ∉ expand_rules [mkRule "rename" "ctx-%h-c" "%H-C"]) /\
  Example.run_validate Example.fs_lut [mkRule "rename" "ctx-%h-c" "%H-C"] regions
  = Raise (MissingRuleError "A") /\
  Example.run_validate Example.fs_lut [mkRule "rename" "ctx-%h-c" "%H-C"] regions
  <> Raise (MissingRuleError "B").
Proof.
  split_and!.
  - vm_compute. right. left.
  - vm_compute. intros Hin. apply list_elem_of_singleton in Hin. discriminate Hin.
  - reflexivity.
  - vm_compute. discriminate.
Qed.

(** C7 (amended): the validator fails with MissingRuleError naming a region
    exactly when the checks before it (rule outputs, duplicate colors) have
    passed and the region is the first cortical TargetRegion, in target
    order, whose templated name "%H-<name>" is absent from the filtered
    rule-expansion name set; and the cortical check passes exactly when the
    templated name of every cortical region is present. *)
Theorem missing_rule_error (rules : list Rule) (fs_regs : list string)
    (regions : list TargetRegion) :
  let vep_regs := t_name <$> regions in
  let vep_colors := t_color <$> regions in
  let newregs := expand_rules rules in
  (forall reg,
     validate rules fs_regs vep_regs (t_iscort <$> regions) vep_colors
     = Raise (MissingRuleError reg) <->
     forallb (str_contains "%H") newregs = true /\
     duplicates vep_colors vep_regs = [] /\
     first_missing newregs (cortical_regs regions) reg) /\
  (forR (cortical_regs regions) (check_cortical newregs) = Ok tt <->
   forall reg, reg ∈ cortical_regs regions -> "%H-" +:+ reg ∈ newregs).
Proof.
  intros vep_regs vep_colors newregs. split.
  - intros reg. rewrite validate_unfold. fold newregs.
    destruct (forallb _ _); [|split; [done | by intros ([=] & _)]].
    destruct (duplicates vep_colors vep_regs) as [|x l];
      [|split; [done | by intros (_ & [=] & _)]].
    fold (cortical_regs regions). split.
    + intros [Hc|([] & _ & [Hs|([] & _ & Ho)]%bindR_Raise)]%bindR_Raise.
      * apply forR_cortical_Raise in Hc as (reg' & [= <-] & Hfirst). done.
      * by apply forR_subcort_Raise in Hs.
      * by apply assertR_Raise in Ho as [_ [=]].
    + intros (_ & _ & Hfirst). apply bindR_Raise. left.
      apply forR_cortical_Raise. eauto.
  - rewrite forR_Ok, Forall_forall.
    split; intros Hall reg Hreg; apply check_cortical_Ok; by apply Hall.
Qed.

(** *** C8: coverage of the subcortical regions *)

(** C8: for a subcortical TargetRegion, the assertion of the coverage loop
    holds exactly when "%H-<name>" is in the rule-expansion name set or
    both "Left-<name>" and "Right-<name>" are reference names; the
    validator accepts an input only if it holds for every subcortical
    region, and a subcortical region for which it does not hold makes the
    validator raise. *)
Theorem subcort_coverage (rules : list Rule) (fs_regs : list string)
    (regions : list TargetRegion) (reg : string) :
  reg ∈ subcort_regs regions ->
  let newregs := expand_rules rules in
  let covered := "%H-" +:+ reg ∈ newregs \/
                 ("Left-" +:+ reg ∈ fs_regs /\ "Right-" +:+ reg ∈ fs_regs) in
  let outcome := validate rules fs_regs (t_name <$> regions)
                          (t_iscort <$> regions) (t_color <$> regions) in
  (assertR (subcort_covered newregs fs_regs reg) SubcortCoverageError = Ok tt
   <-> covered) /\
  (outcome = Ok tt -> covered) /\
  (~ covered -> exists e, outcome = Raise e /\ validation_error e).
Proof.
  intros Hreg newregs covered outcome.
  assert (outcome = Ok tt -> covered) as Hok.
  { unfold outcome. rewrite validate_unfold. fold newregs.
    destruct (forallb _ _); [|done].
    destruct (duplicates _ _); [|done].
    intros ([] & _ & ([] & Hs & _)%bindR_Ok)%bindR_Ok.
    rewrite forR_Ok, Forall_forall in Hs.
    specialize (Hs reg Hreg). apply assertR_Ok in Hs.
    by apply subcort_covered_true. }
  split_and!.
  - rewrite assertR_Ok. apply subcort_covered_true.
  - done.
  - intros Hnot. destruct outcome as [[]|e] eqn:Hout.
    + by destruct Hnot; apply Hok.
    + exists e. split; [done|]. by eapply validate_Raise.
Qed.

(** The theorem on the example atlas extended by a subcortical region that
    has no rule and no reference rows. *)
Lemma subcort_coverage_witness :
  exists e,
    Example.run_validate Example.fs_lut Example.rules
      (Example.regions ++ [mkRegion false "Amygdala" (103, 255, 255, 0)])
    = Raise e /\ validation_error e.
Proof.
  apply (subcort_coverage Example.rules (e_name <$> Example.fs_lut)
           (Example.regions ++ [mkRegion false "Amygdala" (103, 255, 255, 0)])
           "Amygdala").
  - vm_compute. right. left.
  - vm_compute. intros [Hin|[Hin _]].
    + repeat (apply elem_of_cons in Hin as [Hin|Hin]; [discriminate Hin|]).
      by apply elem_of_nil in Hin.
    + repeat (apply elem_of_cons in Hin as [Hin|Hin]; [discriminate Hin|]).
      by apply elem_of_nil in Hin.
Defined.

(** *** C6: no output before validation has passed *)

(** C6: when [create_luts] fails with a validation error (malformed rule,
    duplicate color, missing cortical rule, subcortical coverage, or
    ordering), the disk and the list of files opened for writing are what
    they were before the call: none of the four outputs has been opened. *)
Theorem validation_failure_writes_nothing
    (fs_lut_file vep_rules_file vep_regions_file vep_fs_lut_file
     vep_mrtrix_lut_file vep_subcort_file vep_aparc_lut_file : string)
    (w w' : world) (e : error) :
  create_luts fs_lut_file vep_rules_file vep_regions_file vep_fs_lut_file
              vep_mrtrix_lut_file vep_subcort_file vep_aparc_lut_file w
  = (Raise e, w') ->
  validation_error e ->
  w' = w /\ w_opened w' = w_opened w /\ w_files w' = w_files w.
Proof.
  intros Hrun Hval.
  assert (w' = w) as -> by by eapply create_luts_validation_error.
  done.
Qed.

(** The theorem on a run that stops at the duplicate-color check. *)
Lemma validation_failure_witness :
  let w := Example.disk Example.fs_lut Example.rules
             (Example.regions ++ [mkRegion false "Amygdala" (10, 20, 30, 0)]) in
  (Example.main w).2 = w /\ w_opened (Example.main w).2 = w_opened w /\
  w_files (Example.main w).2 = w_files w.
Proof.
  intros w.
  apply (validation_failure_writes_nothing
           "FreeSurferColorLUT.txt" "VepAtlasRules.txt" "VepRegions.txt"
           "VepFreeSurferColorLut.txt" "VepMrtrixLut.txt" "subcort.vep.txt"
           "VepAparcColorLut.txt" w (Example.main w).2
           (DuplicateColorError [((10, 20, 30, 0), "A", "Amygdala")])).
  - vm_compute. reflexivity.
  - exact I.
Defined.

(** ** Further properties of the compiler *)

(** *** [duplicates] on its own *)

Lemma zip_fst_take {A B} (l : list A) (k : list B) :
  (zip l k).*1 = take (length k) l.
Proof.
  revert k. induction l as [|x l IH]; intros [|y k]; simpl; try done.
  by rewrite IH.
Qed.

Section duplicates_alone.
Context {K : Type} `{Countable K} {V : Type}.

Lemma collisions_nil_NoDup (kvs : list (K * V)) :
  collisions kvs = [] <-> NoDup kvs.*1.
Proof.
  rewrite collisions_nil, NoDup_alt. split.
  - intros Hall i j k Hi Hj.
    rewrite list_lookup_fmap in Hi, Hj.
    destruct (kvs !! i) as [p|] eqn:Hp; [|done].
    destruct (kvs !! j) as [q|] eqn:Hq; [|done]. simplify_eq/=.
    destruct (Nat.lt_trichotomy i j) as [Hlt|[->|Hlt]]; [|done|].
    + by destruct (Hall i j p q).
    + by destruct (Hall j i q p).
  - intros Hnd i j p q Hi Hj Hlt Hpq.
    assert (i = j); [|lia].
    apply (Hnd i j p.1); rewrite list_lookup_fmap.
    + by rewrite Hi.
    + by rewrite Hj, Hpq.
Qed.

(** The loop reports an entry exactly when its key is already in the
    dictionary, so reported entries and distinct keys add up to the input. *)
Lemma duplicates_loop_count (kvs : list (K * V)) (dct : gmap K V)
    (dups : list (K * V * V)) :
  (length (duplicates_loop kvs dct dups)
   + size (dom dct ∪ list_to_set kvs.*1 : gset K)
   = length dups + size (dom dct) + length kvs)%nat.
Proof.
  revert dct dups. induction kvs as [|[k v] kvs IH]; intros dct dups; csimpl.
  - rewrite (right_id_L ∅ (∪)). lia.
  - destruct (dct !! k) as [v0|] eqn:Hk.
    + specialize (IH dct (dups ++ [(k, v0, v)])).
      rewrite length_app in IH. simpl in IH.
      assert (dom dct ∪ ({[k]} ∪ list_to_set kvs.*1)
              = dom dct ∪ list_to_set kvs.*1 :> gset K) as ->.
      { assert (k ∈ dom dct) as Hin by (apply elem_of_dom; eauto).
        apply set_eq. intros x. rewrite !elem_of_union, elem_of_singleton.
        split; [intros [?|[->|?]]; auto | intros [?|?]; auto]. }
      lia.
    + specialize (IH (<[k := v]> dct) dups).
      rewrite dom_insert_L in IH.
      assert (dom dct ∪ ({[k]} ∪ list_to_set kvs.*1)
              = {[k]} ∪ dom dct ∪ list_to_set kvs.*1 :> gset K) as ->
        by (by rewrite (assoc_L (∪)), (comm_L (∪) (dom dct))).
      rewrite (size_union {[k]} (dom dct)), size_singleton in IH.
      * lia.
      * apply disjoint_singleton_l. by apply not_elem_of_dom.
Qed.
End duplicates_alone.

Lemma duplicates_nil_take {K : Type} `{Countable K} {V : Type}
    (keys : list K) (values : list V) :
  duplicates keys values = [] <-> NoDup (take (length values) keys).
Proof.
  rewrite duplicates_collisions, collisions_nil_NoDup. by rewrite zip_fst_take.
Qed.

(** X1: [duplicates] returns the empty list exactly when no key occurs twice
    among the pairs it zips, that is among the first [len(values)] keys. *)
Theorem duplicates_nil_iff {K : Type} `{Countable K} {V : Type}
    (keys : list K) (values : list V) :
  duplicates keys values = [] <-> NoDup (take (length values) keys).
Proof. apply duplicates_nil_take. Qed.

(** X2: every zipped pair is either the first of its key or reported once:
    the number of reported triples plus the number of distinct keys is the
    number of pairs. *)
Theorem duplicates_count {K : Type} `{Countable K} {V : Type}
    (keys : list K) (values : list V) :
  (length (duplicates keys values)
   + size (list_to_set (take (length values) keys) : gset K)
   = length (zip keys values))%nat.
Proof.
  pose proof (duplicates_loop_count (zip keys values) ∅ []) as Hc.
  rewrite dom_empty_L, (left_id_L ∅ (∪)), size_empty, zip_fst_take in Hc.
  simpl in Hc. unfold duplicates. lia.
Qed.

(** *** The rule outputs *)

Lemma split_comma_not_nil s : split_comma s <> [].
Proof.
  destruct s as [|c s]; simpl; [done|].
  destruct (Ascii.eqb c ","); [done|]. by destruct (split_comma s).
Qed.

Lemma join_comma_cons p rest :
  rest <> [] -> join_comma (p :: rest) = p +:+ "," +:+ join_comma rest.
Proof. by destruct rest. Qed.

Lemma str_contains_cons pat c s :
  str_contains pat (String c s) = String.prefix pat (String c s) || str_contains pat s.
Proof. done. Qed.

Lemma prefix_true pat s :
  String.prefix pat s = true <-> exists post, s = pat +:+ post.
Proof.
  revert s. induction pat as [|a pat IH]; intros s.
  - split; [by exists s | by destruct s].
  - destruct s as [|b s]; simpl.
    + split; [done | by intros [post [=]]].
    + destruct (ascii_dec a b) as [<-|Hne].
      * rewrite IH. split; intros [post Hpost]; exists post.
        -- by rewrite Hpost.
        -- by injection Hpost.
      * split; [done|]. intros [post [= ? _]]. by destruct Hne.
Qed.

(** [pat in s] holds exactly when [pat] is a substring of [s]. *)
Lemma str_contains_true pat s :
  str_contains pat s = true <-> exists pre post, s = pre +:+ pat +:+ post.
Proof.
  split.
  - induction s as [|c s IH].
    + change (str_contains pat EmptyString)
        with (String.prefix pat EmptyString || false).
      rewrite orb_false_r. intros [post ->]%prefix_true.
      by exists EmptyString, post.
    + rewrite str_contains_cons. intros [Hp|Hs]%orb_true_iff.
      * apply prefix_true in Hp as [post ->]. by exists EmptyString, post.
      * destruct (IH Hs) as (pre & post & ->). by exists (String c pre), post.
  - intros (pre & post & ->). induction pre as [|c pre IH].
    + assert (String.prefix pat (pat +:+ post) = true) as Hp
        by (apply prefix_true; eauto).
      change (EmptyString +:+ pat +:+ post) with (pat +:+ post).
      revert Hp. generalize (pat +:+ post). intros [|c s] Hp.
      * change (str_contains pat EmptyString)
          with (String.prefix pat EmptyString || false). by rewrite Hp.
      * by rewrite str_contains_cons, Hp.
    + change (String c pre +:+ pat +:+ post) with (String c (pre +:+ pat +:+ post)).
      rewrite str_contains_cons, IH. apply orb_true_r.
Qed.

Lemma str_contains_comma_cons c s :
  Ascii.eqb c "," = false ->
  str_contains "," (String c s) = str_contains "," s.
Proof.
  intros Hc. rewrite str_contains_cons. cbn [String.prefix].
  destruct (ascii_dec "," c) as [Heq|_]; [|done].
  subst c. by rewrite Ascii.eqb_refl in Hc.
Qed.

(** X3: [s.split(",")] never returns the empty list, none of its pieces
    contains a comma, and joining the pieces with commas gives [s] back. *)
Theorem split_comma_join (s : string) :
  split_comma s <> [] /\
  Forall (fun piece => str_contains "," piece = false) (split_comma s) /\
  join_comma (split_comma s) = s.
Proof.
  split; [apply split_comma_not_nil|].
  induction s as [|c s [IHp IHj]]; simpl.
  - split; [by repeat constructor | done].
  - pose proof (split_comma_not_nil s) as Hne.
    destruct (Ascii.eqb c ",") eqn:Hc.
    + apply Ascii.eqb_eq in Hc as ->. split; [by constructor|].
      rewrite join_comma_cons by done. by rewrite IHj.
    + destruct (split_comma s) as [|h t]; [done|].
      inversion IHp as [|? ? Hh Ht]; subst. split.
      * constructor; [|done]. by rewrite str_contains_comma_cons.
      * by destruct t.
Qed.

Lemma elem_of_rule_outputs reg rule :
  reg ∈ rule_outputs rule <->
  (rule_0 rule ∈ ["merge"; "rename"] /\ reg = rule_2 rule) \/
  (rule_0 rule ∈ ["split"; "splitnl"] /\ reg ∈ split_comma (rule_2 rule)).
Proof.
  unfold rule_outputs.
  destruct (py_in (rule_0 rule) ["merge"; "rename"]) eqn:H1.
  - apply py_in_true in H1. rewrite list_elem_of_singleton. split; [auto|].
    intros [[_ ->]|[H2 _]]; [done|]. exfalso.
    repeat (apply elem_of_cons in H1 as [H1|H1];
            [rewrite H1 in H2;
             repeat (apply elem_of_cons in H2 as [H2|H2]; [discriminate H2|]);
             by apply elem_of_nil in H2|]).
    by apply elem_of_nil in H1.
  - apply py_in_false in H1.
    destruct (py_in (rule_0 rule) ["split"; "splitnl"]) eqn:H2.
    + apply py_in_true in H2. split; [auto|]. by intros [[? _]|[_ ?]].
    + apply py_in_false in H2. split; [by intros ?%elem_of_nil|].
      by intros [[? _]|[? _]].
Qed.

Lemma elem_of_expand_rules reg rules :
  reg ∈ expand_rules rules <->
  (reg ∉ temp_regions) /\ exists rule, rule ∈ rules /\ reg ∈ rule_outputs rule.
Proof.
  unfold expand_rules.
  rewrite list_elem_of_filter, negb_true_iff, py_in_false.
  split; intros [Ht Hin]; (split; [done|]).
  - apply list_elem_of_In, in_flat_map in Hin as (rule & Hr & Ho).
    exists rule. by rewrite !list_elem_of_In.
  - destruct Hin as (rule & Hr & Ho). apply list_elem_of_In, in_flat_map.
    exists rule. by rewrite <- !list_elem_of_In.
Qed.

Lemma forallb_false {A} (f : A -> bool) (l : list A) :
  forallb f l = false <-> exists x, x ∈ l /\ f x = false.
Proof.
  induction l as [|y l IH]; simpl.
  - split; [done | by intros (x & ?%elem_of_nil & _)].
  - rewrite andb_false_iff, IH. split.
    + intros [Hy|(x & Hx & Hf)]; [exists y | exists x]; split; try done;
        [by left | by right].
    + intros (x & [->|Hx]%elem_of_cons & Hf); [by left | right; eauto].
Qed.

(** The validator raises the error of a check only at that check. *)
Lemma validate_cases rules fs_regs vep_regs vep_iscort vep_colors :
  let newregs := expand_rules rules in
  let outcome := validate rules fs_regs vep_regs vep_iscort vep_colors in
  (forallb (str_contains "%H") newregs = false /\ outcome = Raise MalformedRuleError) \/
  (forallb (str_contains "%H") newregs = true /\
   ((duplicates vep_colors vep_regs <> [] /\
     outcome = Raise (DuplicateColorError (duplicates vep_colors vep_regs))) \/
    (duplicates vep_colors vep_regs = [] /\
     ((exists reg, first_missing newregs (mask_select vep_regs vep_iscort) reg /\
                   outcome = Raise (MissingRuleError reg)) \/
      (Forall (fun reg => "%H-" +:+ reg ∈ newregs) (mask_select vep_regs vep_iscort) /\
       ((Exists (fun reg => subcort_covered newregs fs_regs reg = false)
                (mask_select vep_regs (negb <$> vep_iscort)) /\
         outcome = Raise SubcortCoverageError) \/
        (Forall (fun reg => subcort_covered newregs fs_regs reg = true)
                (mask_select vep_regs (negb <$> vep_iscort)) /\
         ((np_all_ge_next vep_iscort = false /\ outcome = Raise OrderingError) \/
          (np_all_ge_next vep_iscort = true /\ outcome = Ok tt))))))))).
Proof.
  intros newregs outcome. unfold outcome. rewrite validate_unfold. fold newregs.
  destruct (forallb _ newregs); [right; split; [done|] | by left].
  destruct (duplicates vep_colors vep_regs) as [|d ds]; [right; split; [done|] | by left].
  destruct (forR (mask_select vep_regs vep_iscort) (check_cortical newregs))
    as [[]|e] eqn:Hc; simpl.
  - right. split.
    { apply forR_Ok in Hc. eapply Forall_impl; [exact Hc|].
      intros reg. apply check_cortical_Ok. }
    destruct (forR (mask_select vep_regs (negb <$> vep_iscort)) _)
      as [[]|e] eqn:Hs; simpl.
    + right. split.
      { apply forR_Ok in Hs. eapply Forall_impl; [exact Hs|].
        intros reg. apply assertR_Ok. }
      destruct (np_all_ge_next vep_iscort); [by right | by left].
    + left. pose proof (forR_subcort_Raise _ _ _ _ Hs) as ->. split; [|done].
      apply forR_Raise in Hs as (k & reg & Hk & [Hb _]%assertR_Raise & _).
      apply Exists_exists. exists reg. split; [|done].
      by eapply list_elem_of_lookup_2.
  - left. apply forR_cortical_Raise in Hc as (reg & -> & Hfirst). eauto.
Qed.

(** X4: the validator raises the placeholder assertion (line 42) exactly
    when some name produced by a rule - the output of a [merge] or [rename]
    rule, or a comma-separated piece of the output of a [split] or
    [splitnl] rule - is none of the scratch names [%0] .. [%9] and has no
    substring [%H]; rules of any other kind produce no name. *)
Theorem malformed_rule_error (rules : list Rule) (fs_regs vep_regs : list string)
    (vep_iscort : list bool) (vep_colors : list RGBA) :
  validate rules fs_regs vep_regs vep_iscort vep_colors = Raise MalformedRuleError
  <->
  exists rule reg,
    rule ∈ rules /\
    ((rule_0 rule ∈ ["merge"; "rename"] /\ reg = rule_2 rule) \/
     (rule_0 rule ∈ ["split"; "splitnl"] /\ reg ∈ split_comma (rule_2 rule))) /\
    (reg ∉ temp_regions) /\
    ~ exists pre post, reg = pre +:+ "%H" +:+ post.
Proof.
  destruct (validate_cases rules fs_regs vep_regs vep_iscort vep_colors)
    as [[Hf ->]|[Hf Hrest]].
  - split; [intros _|done].
    apply forallb_false in Hf as (reg & Hreg & Hc).
    apply elem_of_expand_rules in Hreg as (Htemp & rule & Hrule & Hout).
    exists rule, reg. split_and!; [done | by apply elem_of_rule_outputs | done |].
    intros Hsub%str_contains_true. congruence.
  - split.
    + intros Hout. exfalso.
      destruct Hrest as [[_ Ho]|[_ [(reg & _ & Ho)|[_ [[_ Ho]|[_ [[_ Ho]|[_ Ho]]]]]]]];
        congruence.
    + intros (rule & reg & Hrule & Hout & Htemp & Hsub). exfalso. apply Hsub.
      apply str_contains_true.
      rewrite forallb_forall in Hf. apply Hf. apply list_elem_of_In.
      apply elem_of_expand_rules. split; [done|]. exists rule.
      split; [done|]. by apply elem_of_rule_outputs.
Qed.

(** *** The ordering check and the accepted inputs *)

Lemma np_all_ge_next_cons x y l :
  np_all_ge_next (x :: y :: l) = (x || negb y) && np_all_ge_next (y :: l).
Proof. done. Qed.

(** The pairwise test of line 64 on neighbours is the global condition that
    no [False] comes before a [True]. *)
Lemma np_all_ge_next_true b :
  np_all_ge_next b = true <->
  forall i j, (i < j)%nat -> b !! i = Some false -> b !! j <> Some true.
Proof.
  induction b as [|x [|y l] IH].
  - split; [|done]. intros _ i j _ Hi. by rewrite lookup_nil in Hi.
  - split; [|done]. intros _ i [|j] Hlt _; [lia|]. simpl. by rewrite lookup_nil.
  - rewrite np_all_ge_next_cons, andb_true_iff, IH. split.
    + intros [Hxy Hrest] [|i] [|j] Hlt Hi; try lia; simpl in *.
      * injection Hi as ->. simpl in Hxy. apply negb_true_iff in Hxy as ->.
        destruct j as [|j]; [done|]. apply (Hrest 0%nat (S j)); [lia | done].
      * apply (Hrest i j); [lia | done].
    + intros Hall. split.
      * destruct x, y; try done.
        by destruct (Hall 0%nat 1%nat ltac:(lia) eq_refl).
      * intros i j Hlt Hi. apply (Hall (S i) (S j)); [lia | done].
Qed.

Lemma np_all_ge_next_false b :
  np_all_ge_next b = false <->
  exists i j, (i < j)%nat /\ b !! i = Some false /\ b !! j = Some true.
Proof.
  induction b as [|x [|y l] IH].
  - split; [done|]. intros (i & j & _ & Hi & _). by rewrite lookup_nil in Hi.
  - split; [done|]. intros (i & [|j] & Hlt & _ & Hj); [lia|].
    simpl in Hj. by rewrite lookup_nil in Hj.
  - rewrite np_all_ge_next_cons, andb_false_iff, IH. split.
    + intros [Hxy|(i & j & Hlt & Hi & Hj)].
      * destruct x, y; try done. exists 0%nat, 1%nat. split_and!; [lia|done..].
      * exists (S i), (S j). split_and!; [lia|done..].
    + intros (i & j & Hlt & Hi & Hj).
      destruct (np_all_ge_next (y :: l)) eqn:Hnp; [|right; by apply IH].
      left. destruct i as [|i], j as [|j]; try lia; simpl in *.
      * injection Hi as ->. destruct y; [done|]. exfalso.
        destruct j as [|j]; [done|].
        by apply (proj1 (np_all_ge_next_true (false :: l)) Hnp 0%nat (S j));
          [lia|..].
      * exfalso.
        by apply (proj1 (np_all_ge_next_true (y :: l)) Hnp i j); [lia|..].
Qed.

Lemma regions_iscort_lookup (regions : list TargetRegion) i b :
  (t_iscort <$> regions) !! i = Some b <->
  exists r, regions !! i = Some r /\ t_iscort r = b.
Proof.
  rewrite list_lookup_fmap, fmap_Some. split.
  - intros (r & Hr & ->). eauto.
  - intros (r & Hr & <-). eauto.
Qed.

Lemma regions_colors_NoDup (regions : list TargetRegion) :
  duplicates (t_color <$> regions) (t_name <$> regions) = [] <->
  NoDup (t_color <$> regions).
Proof.
  rewrite duplicates_nil_take, length_fmap, <- (length_fmap t_color).
  by rewrite firstn_all.
Qed.

(** X5: the validator raises the ordering assertion (line 64) exactly when
    every earlier check has passed and some subcortical row of the target
    spec comes before a cortical row, however far apart the two rows are. *)
Theorem ordering_error (rules : list Rule) (fs_regs : list string)
    (regions : list TargetRegion) :
  let newregs := expand_rules rules in
  validate rules fs_regs (t_name <$> regions) (t_iscort <$> regions)
           (t_color <$> regions) = Raise OrderingError
  <->
  forallb (str_contains "%H") newregs = true /\
  NoDup (t_color <$> regions) /\
  (forall reg, reg ∈ cortical_regs regions -> "%H-" +:+ reg ∈ newregs) /\
  (forall reg, reg ∈ subcort_regs regions ->
     "%H-" +:+ reg ∈ newregs \/
     ("Left-" +:+ reg ∈ fs_regs /\ "Right-" +:+ reg ∈ fs_regs)) /\
  exists i j ri rj,
    (i < j)%nat /\ regions !! i = Some ri /\ regions !! j = Some rj /\
    t_iscort ri = false /\ t_iscort rj = true.
Proof.
  cbv zeta.
  destruct (validate_cases rules fs_regs (t_name <$> regions)
              (t_iscort <$> regions) (t_color <$> regions))
    as [[Hf ->]|[Hf [[Hd ->]|[Hd [(reg & Hm & ->)|[Hc [[Hs ->]|[Hs [[Ho ->]|[Ho ->]]]]]]]]]];
    fold (cortical_regs regions) in *; fold (subcort_regs regions) in *.
  - split; [done|]. intros (Hf' & _). congruence.
  - split; [done|]. intros (_ & Hd'%regions_colors_NoDup & _). done.
  - split; [done|]. intros (_ & _ & Hc & _).
    destruct Hm as (k & Hk & Hnin & _). destruct Hnin. apply Hc.
    by eapply list_elem_of_lookup_2.
  - split; [done|]. intros (_ & _ & _ & Hs' & _).
    apply Exists_exists in Hs as (reg & Hreg & Hcov).
    apply Hs', subcort_covered_true in Hreg. congruence.
  - split; [intros _|done]. rewrite Forall_forall in Hc, Hs.
    split_and!; [done | by apply regions_colors_NoDup | done | |].
    + intros reg Hreg. by apply subcort_covered_true, Hs.
    + apply np_all_ge_next_false in Ho as (i & j & Hlt & Hi & Hj).
      apply regions_iscort_lookup in Hi as (ri & Hi & ?).
      apply regions_iscort_lookup in Hj as (rj & Hj & ?).
      by exists i, j, ri, rj.
  - split; [done|]. intros (_ & _ & _ & _ & i & j & ri & rj & Hlt & Hi & Hj & Hci & Hcj).
    exfalso.
    apply (proj1 (np_all_ge_next_true _) Ho i j Hlt);
      apply regions_iscort_lookup; eauto.
Qed.


(** *** The cortical table and the renumbered table *)

Lemma mask_select_cons {A} (x : A) (a : list A) (b : bool) (mask : list bool) :
  mask_select (x :: a) (b :: mask)
  = if b then x :: mask_select a mask else mask_select a mask.
Proof.
  unfold mask_select. simpl zip.
  destruct b; [by rewrite filter_cons_True | by rewrite filter_cons_False].
Qed.

Lemma mask_select_all_false {A} (a : list A) (mask : list bool) :
  (forall j, mask !! j <> Some true) ->
  mask_select a mask = [] /\
  (length a = length mask -> mask_select a (negb <$> mask) = a).
Proof.
  revert mask. induction a as [|x a IH]; intros [|b mask] Hall; try done.
  rewrite fmap_cons, !mask_select_cons.
  destruct b; [by destruct (Hall 0%nat)|]. simpl negb. cbv iota.
  destruct (IH mask) as [IH1 IH2]; [intros j; apply (Hall (S j))|].
  split; [done|]. intros [= Hlen]. by rewrite IH2.
Qed.

(** When the ordering check passes, the region names are the cortical
    names followed by the subcortical names. *)
Lemma regions_split (regions : list TargetRegion) :
  np_all_ge_next (t_iscort <$> regions) = true ->
  t_name <$> regions = cortical_regs regions ++ subcort_regs regions.
Proof.
  unfold cortical_regs, subcort_regs.
  induction regions as [|r regions IH]; [done|]. intros Hnp.
  rewrite !fmap_cons, !mask_select_cons.
  destruct (t_iscort r) eqn:Hr; simpl negb; cbv iota.
  - rewrite <- app_comm_cons. f_equal. apply IH.
    destruct regions as [|r' regions]; [done|].
    rewrite !fmap_cons, np_all_ge_next_cons in Hnp.
    by apply andb_true_iff in Hnp as [_ ?].
  - destruct (mask_select_all_false (t_name <$> regions) (t_iscort <$> regions))
      as [-> Hsub].
    + intros j Hj.
      apply (proj1 (np_all_ge_next_true _) Hnp 0%nat (S j)); [lia|..].
      * by rewrite fmap_cons, Hr.
      * by rewrite fmap_cons.
    + rewrite Hsub by by rewrite !length_fmap. done.
Qed.

(** X7: when the ordering check of line 64 passes, the region names of the
    target spec are its cortical names followed by its subcortical names,
    both in target order. *)
Theorem regions_partition (regions : list TargetRegion) :
  np_all_ge_next (t_iscort <$> regions) = true ->
  t_name <$> regions = cortical_regs regions ++ subcort_regs regions.
Proof. apply regions_split. Qed.

(** The theorem on the example atlas. *)
Lemma regions_partition_witness :
  t_name <$> Example.regions
  = cortical_regs Example.regions ++ subcort_regs Example.regions.
Proof. apply (regions_partition Example.regions). reflexivity. Defined.

(** X8: on the table FullLutBuilder wrote, CorticalLutBuilder completes;
    its indices are exactly 0..M for M cortical regions, row 0 is the
    "Unknown" row and rows 1..M are named by the cortical regions, without
    hemisphere prefix, in target order. *)
Theorem cortical_lut_sequential (fs_lut : list AtlasEntry)
    (regions : list TargetRegion) :
  let lut := combined_lut fs_lut regions in
  exists prows,
    parc_lut_body (cortical_regs regions) (e_name <$> lut) (e_color <$> lut)
    = (Unknown_row :: prows, Ok tt) /\
    e_index <$> (Unknown_row :: prows)
    = seqZ 0 (Z.of_nat (length (cortical_regs regions)) + 1) /\
    e_name <$> prows = cortical_regs regions.
Proof.
  intros lut.
  destruct (cortical_resolves regions fs_lut) as [es Hres].
  pose proof (resolves_length _ _ _ Hres) as Hlen.
  unfold hemi_names in Hlen. rewrite length_fmap in Hlen.
  exists (numbered_rows 1 (cortical_regs regions) es). split_and!.
  - by apply parc_lut_body_ok.
  - rewrite fmap_cons, numbered_rows_index by done.
    rewrite (seqZ_cons 0) by lia. simpl e_index. do 2 f_equal; lia.
  - by rewrite numbered_rows_name.
Qed.

(** X9: when the ordering check passes, the cortical table and the
    renumbered table agree row by row: row [k] of the cortical table has the
    index and the color of row [k] of the renumbered table, which carries
    the same region name with the prefix "Left-". *)
Theorem cortical_renumbered_agree (fs_lut : list AtlasEntry)
    (regions : list TargetRegion) :
  np_all_ge_next (t_iscort <$> regions) = true ->
  let lut := combined_lut fs_lut regions in
  exists rows prows,
    vep_mrtrix_lut_body (t_name <$> regions) (e_name <$> lut) (e_color <$> lut)
    = (rows, Ok tt) /\
    parc_lut_body (cortical_regs regions) (e_name <$> lut) (e_color <$> lut)
    = (prows, Ok tt) /\
    (length prows <= length rows)%nat /\
    forall k prow, prows !! k = Some prow ->
      rows !! k = Some (if decide (k = 0%nat) then Unknown_row
                        else mkEntry (e_index prow) ("Left-" +:+ e_name prow)
                                     (e_color prow)).
Proof.
  intros Hnp lut.
  destruct (combined_lut_resolves regions fs_lut) as [es Hres].
  destruct (cortical_resolves regions fs_lut) as [pes Hpres].
  pose proof (resolves_length _ _ _ Hres) as Hlen.
  pose proof (resolves_length _ _ _ Hpres) as Hplen.
  unfold hemi_names in Hplen. rewrite length_fmap in Hplen.
  assert (forall k reg, cortical_regs regions !! k = Some reg ->
            target_names (t_name <$> regions) !! k = Some ("Left-" +:+ reg))
    as Hnames.
  { intros k reg Hk. unfold target_names, hemi_names.
    rewrite (regions_split _ Hnp), fmap_app, <- app_assoc.
    rewrite lookup_app_l by (rewrite length_fmap; by eapply lookup_lt_Some).
    by rewrite list_lookup_fmap, Hk. }
  exists (Unknown_row :: numbered_rows 1 (target_names (t_name <$> regions)) es),
         (Unknown_row :: numbered_rows 1 (cortical_regs regions) pes).
  split_and!.
  - by apply vep_mrtrix_lut_body_ok.
  - by apply parc_lut_body_ok.
  - simpl. unfold numbered_rows. rewrite !length_imap, !length_zip.
    rewrite <- Hlen, <- Hplen, target_names_length, length_fmap.
    rewrite !Nat.min_id.
    pose proof (f_equal length (regions_split _ Hnp)) as Hl.
    rewrite length_fmap, length_app in Hl. lia.
  - intros [|k] prow Hk; simpl in Hk.
    { by injection Hk as <-. }
    rewrite decide_False by done. simpl.
    unfold numbered_rows in Hk. rewrite list_lookup_imap in Hk.
    destruct (zip (cortical_regs regions) pes !! k) as [[reg e]|] eqn:Hz;
      simplify_eq/=.
    apply lookup_zip_with_Some in Hz as (reg' & e' & [= <- <-] & Hreg & He).
    assert (hemi_names "Left" (cortical_regs regions) !! k
            = Some ("Left-" +:+ reg)) as Hn
      by (unfold hemi_names; by rewrite list_lookup_fmap, Hreg).
    destruct (resolves_lookup _ _ _ _ _ Hpres Hn) as (e1 & He1 & Hf1).
    destruct (resolves_lookup _ _ _ _ _ Hres (Hnames _ _ Hreg)) as (e2 & He2 & Hf2).
    assert (e1 = e) as -> by congruence.
    assert (e2 = e) as -> by congruence.
    apply numbered_rows_lookup; [by apply Hnames | done].
Qed.

(** The theorem on the example atlas. *)
Lemma cortical_renumbered_agree_witness :
  let lut := combined_lut Example.fs_lut Example.regions in
  exists rows prows,
    vep_mrtrix_lut_body (t_name <$> Example.regions) (e_name <$> lut)
                        (e_color <$> lut) = (rows, Ok tt) /\
    parc_lut_body (cortical_regs Example.regions) (e_name <$> lut)
                  (e_color <$> lut) = (prows, Ok tt) /\
    (length prows <= length rows)%nat /\
    forall k prow, prows !! k = Some prow ->
      rows !! k = Some (if decide (k = 0%nat) then Unknown_row
                        else mkEntry (e_index prow) ("Left-" +:+ e_name prow)
                                     (e_color prow)).
Proof.
  apply (cortical_renumbered_agree Example.fs_lut Example.regions). reflexivity.
Defined.

(** *** The combined table as a keyed table *)

Lemma hemi_name_inj hemi a b :
  hemi +:+ "-" +:+ a = hemi +:+ "-" +:+ b -> a = b.
Proof.
  intros Heq. apply (inj (String.append hemi)) in Heq.
  by apply (inj (String.append "-")) in Heq.
Qed.

Lemma left_right_names_differ a b : "Left-" +:+ a <> "Right-" +:+ b.
Proof. intros Heq. discriminate Heq. Qed.

Lemma hemi_names_NoDup hemi regs : NoDup regs -> NoDup (hemi_names hemi regs).
Proof.
  intros Hnd. unfold hemi_names. apply NoDup_fmap_2_strong; [|done].
  intros a b _ _. apply hemi_name_inj.
Qed.

Lemma target_names_NoDup regs : NoDup regs -> NoDup (target_names regs).
Proof.
  intros Hnd. unfold target_names. apply NoDup_app. split_and!.
  - by apply hemi_names_NoDup.
  - intros n (a & -> & _)%list_elem_of_fmap (b & Heq & _)%list_elem_of_fmap.
    by apply (left_right_names_differ a b).
  - by apply hemi_names_NoDup.
Qed.

Lemma first_entry_cons e lut n :
  first_entry (e :: lut) n
  = if decide (e_name e = n) then Some e else first_entry lut n.
Proof.
  unfold first_entry. simpl. case_decide; [done|].
  by destruct (list_find _ lut) as [[i e']|].
Qed.

Lemma first_entry_app_r lut lut' n :
  n ∉ e_name <$> lut -> first_entry (lut ++ lut') n = first_entry lut' n.
Proof.
  intros Hnin. apply first_entry_None in Hnin.
  unfold first_entry in *. apply fmap_None in Hnin.
  rewrite (list_find_app_r _ _ _ Hnin).
  by destruct (list_find _ lut') as [[i e]|].
Qed.

(** With distinct region names, the row FullLutBuilder emits for a region
    is the first row of its name and carries the region's color. *)
Lemma vep_fs_hemi_first hemi hnum fs_regs regs_colors i reg color :
  NoDup regs_colors.*1 -> (reg, color) ∈ regs_colors ->
  hemi +:+ "-" +:+ reg ∉ fs_regs ->
  exists idx,
    first_entry (vep_fs_hemi hemi hnum fs_regs regs_colors i)
                (hemi +:+ "-" +:+ reg)
    = Some (mkEntry idx (hemi +:+ "-" +:+ reg) color).
Proof.
  revert i. induction regs_colors as [|[reg0 color0] rest IH];
    intros i Hnd Hin Hfs.
  - by apply elem_of_nil in Hin.
  - rewrite fmap_cons in Hnd. apply NoDup_cons in Hnd as [Hnotin Hnd].
    simpl in Hnotin. simpl vep_fs_hemi.
    apply elem_of_cons in Hin as [[= <- <-]|Hin].
    + apply py_in_false in Hfs. rewrite Hfs. rewrite first_entry_cons.
      rewrite decide_True by done. eauto.
    + assert (reg0 <> reg) as Hne.
      { intros ->. apply Hnotin. apply list_elem_of_fmap. by exists (reg, color). }
      destruct (py_in _ fs_regs); [by apply IH|].
      rewrite first_entry_cons, decide_False; [by apply IH|].
      simpl. intros Heq%hemi_name_inj. done.
Qed.

(** X10: when the reference atlas has no name twice and the target spec has
    no region name twice, no name occurs twice in the combined table. *)
Theorem combined_names_unique (fs_lut : list AtlasEntry)
    (regions : list TargetRegion) :
  NoDup (e_name <$> fs_lut) -> NoDup (t_name <$> regions) ->
  NoDup (e_name <$> combined_lut fs_lut regions).
Proof.
  intros Hfs Hregs. unfold combined_lut.
  rewrite fmap_app, vep_fs_new_rows_name. apply NoDup_app. split_and!.
  - done.
  - intros n Hn Hn'. by apply list_elem_of_filter in Hn' as [? _].
  - by apply NoDup_filter, target_names_NoDup.
Qed.

(** The theorem on the example atlas. *)
Lemma combined_names_unique_witness :
  NoDup (e_name <$> combined_lut Example.fs_lut Example.regions).
Proof.
  apply (combined_names_unique Example.fs_lut Example.regions).
  - apply (bool_decide_unpack _); vm_compute; exact I.
  - apply (bool_decide_unpack _); vm_compute; exact I.
Defined.

(** X11: when the reference atlas has no index twice and none in
    71001..73000, and the target spec has at most 1000 regions, no index
    occurs twice in the combined table. *)
Theorem combined_indices_unique (fs_lut : list AtlasEntry)
    (regions : list TargetRegion) :
  NoDup (reference_indices fs_lut) ->
  Forall (fun x => ~ (SHIFT_LH < x <= SHIFT_RH + 1000)) (reference_indices fs_lut) ->
  (length regions <= 1000)%nat ->
  NoDup (e_index <$> combined_lut fs_lut regions).
Proof.
  intros Hnd Href Hlen. rewrite Forall_forall in Href.
  unfold combined_lut. rewrite vep_fs_new_rows_unfold, !fmap_app.
  fold (reference_indices fs_lut).
  fold (new_indices "Left" SHIFT_LH fs_lut regions).
  fold (new_indices "Right" SHIFT_RH fs_lut regions).
  apply NoDup_app. split_and!; [done| |apply NoDup_app; split_and!].
  - intros x Hx%Href [Hx'%new_indices_range|Hx'%new_indices_range]%elem_of_app;
      unfold SHIFT_LH, SHIFT_RH in *; lia.
  - unfold new_indices. rewrite vep_fs_hemi_index. apply NoDup_seqZ.
  - intros x Hx%new_indices_range Hx'%new_indices_range.
    unfold SHIFT_LH, SHIFT_RH in *. lia.
  - unfold new_indices. rewrite vep_fs_hemi_index. apply NoDup_seqZ.
Qed.

(** The theorem on the example atlas. *)
Lemma combined_indices_unique_witness :
  NoDup (e_index <$> combined_lut Example.fs_lut Example.regions).
Proof.
  apply (combined_indices_unique Example.fs_lut Example.regions).
  - apply (bool_decide_unpack _); vm_compute; exact I.
  - unfold SHIFT_LH, SHIFT_RH. repeat constructor; simpl; lia.
  - simpl. lia.
Defined.

(** X12: when the target spec has no region name twice, a region whose
    Left (Right) name the reference atlas lacks gets the color of the target
    spec in the Left (Right) block of the renumbered table. *)
Theorem new_region_color (fs_lut : list AtlasEntry) (regions : list TargetRegion) :
  NoDup (t_name <$> regions) ->
  let lut := combined_lut fs_lut regions in
  let n := length regions in
  exists rows,
    vep_mrtrix_lut_body (t_name <$> regions) (e_name <$> lut) (e_color <$> lut)
    = (Unknown_row :: rows, Ok tt) /\
    forall k r, regions !! k = Some r ->
      ("Left-" +:+ t_name r ∉ e_name <$> fs_lut ->
       rows !! k = Some (mkEntry (1 + Z.of_nat k) ("Left-" +:+ t_name r)
                                 (t_color r))) /\
      ("Right-" +:+ t_name r ∉ e_name <$> fs_lut ->
       rows !! (n + k)%nat
       = Some (mkEntry (1 + Z.of_nat (n + k)) ("Right-" +:+ t_name r)
                       (t_color r))).
Proof.
  intros Hnd lut n.
  destruct (combined_lut_resolves regions fs_lut) as [es Hres].
  exists (numbered_rows 1 (target_names (t_name <$> regions)) es).
  split; [by apply vep_mrtrix_lut_body_ok|].
  intros k r Hk.
  set (rcs := zip (t_name <$> regions) (t_color <$> regions)).
  assert (NoDup rcs.*1) as Hnd' by (unfold rcs; by rewrite zip_regions_fst).
  assert ((t_name r, t_color r) ∈ rcs) as Hin.
  { unfold rcs. rewrite zip_columns. apply list_elem_of_fmap. exists r.
    split; [done|]. by eapply list_elem_of_lookup_2. }
  assert (forall hemi hnum e,
            hemi +:+ "-" +:+ t_name r ∉ e_name <$> fs_lut ->
            first_entry (vep_fs_hemi hemi hnum (e_name <$> fs_lut) rcs 1)
                        (hemi +:+ "-" +:+ t_name r) = Some e ->
            e_color e = t_color r) as Hcolor.
  { intros hemi hnum e Hfs He.
    destruct (vep_fs_hemi_first hemi hnum (e_name <$> fs_lut) rcs 1
                (t_name r) (t_color r) Hnd' Hin Hfs) as [idx Hidx].
    rewrite Hidx in He. by injection He as <-. }
  assert (length (hemi_names "Left" (t_name <$> regions)) = n) as HlenL
    by (unfold hemi_names; by rewrite !length_fmap).
  split; intros Hfs.
  - assert (target_names (t_name <$> regions) !! k
            = Some ("Left-" +:+ t_name r)) as Hn.
    { unfold target_names. rewrite lookup_app_l
        by (rewrite HlenL; by eapply lookup_lt_Some).
      unfold hemi_names. by rewrite !list_lookup_fmap, Hk. }
    destruct (resolves_lookup _ _ _ _ _ Hres Hn) as (e & He & Hfirst).
    rewrite (numbered_rows_lookup _ _ _ _ _ _ Hn He). do 2 f_equal.
    unfold combined_lut in Hfirst.
    rewrite first_entry_app_r, vep_fs_new_rows_unfold in Hfirst by done.
    fold rcs in Hfirst.
    destruct (vep_fs_hemi_first "Left" SHIFT_LH (e_name <$> fs_lut) rcs 1
                (t_name r) (t_color r) Hnd' Hin Hfs) as [idx Hidx].
    change ("Left" +:+ "-" +:+ t_name r) with ("Left-" +:+ t_name r) in Hidx.
    rewrite first_entry_app in Hfirst
      by (apply first_entry_is_Some; rewrite Hidx; eauto).
    by apply (Hcolor "Left" SHIFT_LH).
  - assert (target_names (t_name <$> regions) !! (n + k)%nat
            = Some ("Right-" +:+ t_name r)) as Hn.
    { unfold target_names. rewrite lookup_app_r by (rewrite HlenL; lia).
      rewrite HlenL. replace (n + k - n)%nat with k by lia.
      unfold hemi_names. by rewrite !list_lookup_fmap, Hk. }
    destruct (resolves_lookup _ _ _ _ _ Hres Hn) as (e & He & Hfirst).
    rewrite (numbered_rows_lookup _ _ _ _ _ _ Hn He). do 2 f_equal.
    unfold combined_lut in Hfirst.
    rewrite first_entry_app_r, vep_fs_new_rows_unfold in Hfirst by done.
    fold rcs in Hfirst.
    rewrite first_entry_app_r in Hfirst.
    + by apply (Hcolor "Right" SHIFT_RH).
    + rewrite vep_fs_hemi_name.
      intros [_ (a & Heq & _)%list_elem_of_fmap]%list_elem_of_filter.
      by apply (left_right_names_differ a (t_name r)).
Qed.

(** The theorem on the example atlas, at region B. *)
Lemma new_region_color_witness :
  let lut := combined_lut Example.fs_lut Example.regions in
  exists rows,
    vep_mrtrix_lut_body (t_name <$> Example.regions) (e_name <$> lut)
                        (e_color <$> lut) = (Unknown_row :: rows, Ok tt) /\
    rows !! 1%nat = Some (mkEntry 2 "Left-B" (40, 50, 60, 0)).
Proof.
  intros lut.
  destruct (new_region_color Example.fs_lut Example.regions)
    as (rows & Hrun & Hrows).
  - apply (bool_decide_unpack _); vm_compute; exact I.
  - exists rows. split; [exact Hrun|].
    apply (proj1 (Hrows 1%nat (mkRegion true "B" (40, 50, 60, 0)) eq_refl)).
    apply (bool_decide_unpack _); vm_compute; exact I.
Defined.

(** X13: FullLutBuilder adds nothing to its own output: run again on the
    combined table as reference, it finds every target name there and emits
    no new row. *)
Theorem full_lut_idempotent (fs_lut : list AtlasEntry)
    (regions : list TargetRegion) :
  vep_fs_new_rows (t_name <$> regions) (t_color <$> regions)
                  (e_name <$> combined_lut fs_lut regions) = [] /\
  combined_lut (combined_lut fs_lut regions) regions
  = combined_lut fs_lut regions.
Proof.
  assert (vep_fs_new_rows (t_name <$> regions) (t_color <$> regions)
            (e_name <$> combined_lut fs_lut regions) = []) as Hnil.
  { apply (fmap_nil_inv e_name). rewrite vep_fs_new_rows_name.
    destruct (filter _ _) as [|n l] eqn:Hf; [done|]. exfalso.
    assert (n ∈ filter (fun n => n ∉ e_name <$> combined_lut fs_lut regions)
                       (target_names (t_name <$> regions))) as Hn
      by (rewrite Hf; by left).
    apply list_elem_of_filter in Hn as [Hnin Hn].
    by apply Hnin, combined_lut_names. }
  split; [done|].
  unfold combined_lut at 1. rewrite Hnil. apply app_nil_r.
Qed.

(** *** Whole runs *)




